(** * CliMan: a shallow embedding of [src/index.ts]

    The development follows the source file top to bottom: the name codec
    ([toCamel], [fromCamel]), the bundled value parsers, the help renderer
    and the resolver [parserRun], the latter as an explicit machine whose
    state is the set of local variables of the TypeScript function.

    Modelling conventions.
    - A JavaScript string is a [string] of ASCII code units; the case
      conversions are those of ASCII, on the letters a-z / A-Z, and the
      statements on the name codec speak of ASCII names.
    - A JavaScript number is the exact rational its literal denotes (or NaN
      or an infinity); rounding to binary64 is outside the model.
    - The [options] object, created as [{}], is the table of its own
      properties, a [gmap string JSValue], together with the members it
      inherits from [Object.prototype], which the operator [in] and a
      read of a name without own property see ([object_prototype]). An
      assignment [options[name] = v] adds or replaces an own property, as
      JavaScript does for every name but [__proto__].
    - Handlers and user parsers are opaque: a handler is an identifier and a
      call to it is the final outcome of a run; a parser is a total function
      from the raw string to a value, [VNull] being the reject value. *)

From Stdlib Require Import QArith.
From Stdlib Require Import Ascii String.
From stdpp Require Import gmap strings list.

Set Warnings "-register-all".

Local Open Scope string_scope.
Local Open Scope list_scope.
Local Open Scope nat_scope.

(** ** Characters *)

Definition code (c : ascii) : nat := nat_of_ascii c.

Definition is_upper (c : ascii) : bool := (65 <=? code c) && (code c <=? 90).
Definition is_lower (c : ascii) : bool := (97 <=? code c) && (code c <=? 122).
Definition is_digit (c : ascii) : bool := (48 <=? code c) && (code c <=? 57).
Definition is_hyphen (c : ascii) : bool := code c =? 45.

(** The characters the regular expression [.] does not match. *)
Definition is_line_terminator (c : ascii) : bool :=
  (code c =? 10) || (code c =? 13).

Definition toUpperCase (c : ascii) : ascii :=
  if is_lower c then ascii_of_nat (code c - 32) else c.

Definition toLowerCase (c : ascii) : ascii :=
  if is_upper c then ascii_of_nat (code c + 32) else c.

(** ** Name codec *)

(** [str.replace(/-./g, m => m[1].toUpperCase())] *)
Fixpoint toCamel (str : string) : string :=
  match str with
  | EmptyString => EmptyString
  | String c rest =>
      if is_hyphen c then
        match rest with
        | String d rest' =>
            if is_line_terminator d then String c (toCamel rest)
            else String (toUpperCase d) (toCamel rest')
        | EmptyString => String c EmptyString
        end
      else String c (toCamel rest)
  end.

(** [str.replace(/[A-Z]/g, m => "-" + m.toLowerCase())] *)
Fixpoint fromCamel (str : string) : string :=
  match str with
  | EmptyString => EmptyString
  | String c rest =>
      if is_upper c then String "-" (String (toLowerCase c) (fromCamel rest))
      else String c (fromCamel rest)
  end.

(** Shapes of external names. *)

Fixpoint all_chars (p : ascii -> bool) (s : string) : bool :=
  match s with
  | EmptyString => true
  | String c rest => p c && all_chars p rest
  end.

(** No character satisfying [p] is directly followed by one satisfying [q]. *)
Fixpoint no_adjacent (p q : ascii -> bool) (s : string) : bool :=
  match s with
  | EmptyString => true
  | String c rest =>
      match rest with
      | EmptyString => true
      | String d _ => negb (p c && q d) && no_adjacent p q rest
      end
  end.

Definition token_char (c : ascii) : bool :=
  is_lower c || is_digit c || is_hyphen c.

(** A hyphen-separated lowercase token without consecutive hyphens: words
    of the ASCII lowercase letters a-z and the digits 0-9, separated by
    single hyphens. *)
Definition lowercase_token (x : string) : bool :=
  all_chars token_char x && no_adjacent is_hyphen is_hyphen x.

Definition no_hyphen_digit (x : string) : bool :=
  no_adjacent is_hyphen is_digit x.

(** ** JavaScript values *)

Inductive JSNumber :=
| NaN
| Infinity (negative : bool)
| Finite (q : Q).

Inductive JSValue :=
| VUndefined
| VNull
| VBool (b : bool)
| VNum (n : JSNumber)
| VStr (s : string)
| VArr (elements : list JSValue).

Definition num (z : Z) : JSNumber := Finite (inject_Z z).

(** [a >= b] and [a < b] on numbers; every comparison with NaN is false. *)
Definition js_ge (a b : JSNumber) : bool :=
  match a, b with
  | NaN, _ | _, NaN => false
  | Infinity na, Infinity nb => implb na nb
  | Infinity na, Finite _ => negb na
  | Finite _, Infinity nb => nb
  | Finite x, Finite y => Qle_bool y x
  end.

Definition js_lt (a b : JSNumber) : bool :=
  match a, b with
  | NaN, _ | _, NaN => false
  | Infinity na, Infinity nb => na && negb nb
  | Infinity na, Finite _ => na
  | Finite _, Infinity nb => negb nb
  | Finite x, Finite y => negb (Qle_bool y x)
  end.

(** ** Regular expressions, by derivatives *)

Inductive regex :=
| RNone
| REps
| RChar (p : ascii -> bool)
| RCat (r s : regex)
| RAlt (r s : regex)
| RStar (r : regex).

Fixpoint nullable (r : regex) : bool :=
  match r with
  | RNone => false
  | REps => true
  | RChar _ => false
  | RCat r s => nullable r && nullable s
  | RAlt r s => nullable r || nullable s
  | RStar _ => true
  end.

Fixpoint deriv (c : ascii) (r : regex) : regex :=
  match r with
  | RNone => RNone
  | REps => RNone
  | RChar p => if p c then REps else RNone
  | RCat r s =>
      if nullable r then RAlt (RCat (deriv c r) s) (deriv c s)
      else RCat (deriv c r) s
  | RAlt r s => RAlt (deriv c r) (deriv c s)
  | RStar r => RCat (deriv c r) (RStar r)
  end.

(** The whole of [s] is a word of [r]. *)
Fixpoint full_match (r : regex) (s : string) : bool :=
  match s with
  | EmptyString => nullable r
  | String c rest => full_match (deriv c r) rest
  end.

Definition ROpt (r : regex) : regex := RAlt REps r.
Definition RPlus (r : regex) : regex := RCat r (RStar r).
Definition RAnything : regex := RStar (RChar (fun _ => true)).

Definition is_sign (c : ascii) : bool := (code c =? 43) || (code c =? 45).
Definition is_dot (c : ascii) : bool := code c =? 46.

(** [/^[+-]?\d+$/] *)
Definition integer_re : regex := RCat (ROpt (RChar is_sign)) (RPlus (RChar is_digit)).

(** The two alternatives of [/^[+-]?[.]\d+|[+-]?\d+([.]\d+)?$/]: the
    alternation binds weaker than the anchors, so [^] belongs to the first
    alternative only and [$] to the second only. *)
Definition number_re_left : regex :=
  RCat (ROpt (RChar is_sign)) (RCat (RChar is_dot) (RPlus (RChar is_digit))).
Definition number_re_right : regex :=
  RCat (ROpt (RChar is_sign))
       (RCat (RPlus (RChar is_digit))
             (ROpt (RCat (RChar is_dot) (RPlus (RChar is_digit))))).

(** [value.match(/^A|B$/)] is truthy when a prefix of [value] is a word of
    [A] or a suffix of it is a word of [B]. *)
Definition number_re_test (value : string) : bool :=
  full_match (RAlt (RCat number_re_left RAnything) (RCat RAnything number_re_right)) value.

(** ** [parseInt(_, 10)] and [parseFloat] *)

Definition is_space (c : ascii) : bool :=
  ((9 <=? code c) && (code c <=? 13)) || (code c =? 32).

Fixpoint skip_spaces (s : string) : string :=
  match s with
  | String c rest => if is_space c then skip_spaces rest else s
  | EmptyString => s
  end.

(** The longest prefix of decimal digits, as (number of digits, value), and
    what follows it. *)
Fixpoint read_digits (acc : nat * Z) (s : string) : (nat * Z) * string :=
  match s with
  | String c rest =>
      if is_digit c
      then read_digits (S (fst acc), (10 * snd acc + Z.of_nat (code c - 48))%Z) rest
      else (acc, s)
  | EmptyString => (acc, s)
  end.

Definition read_sign (s : string) : bool * string :=
  match s with
  | String c rest =>
      if code c =? 45 then (true, rest)
      else if code c =? 43 then (false, rest)
      else (false, s)
  | EmptyString => (false, s)
  end.

Definition parseInt (value : string) : JSNumber :=
  let '(negative, s) := read_sign (skip_spaces value) in
  let '((count, n), _) := read_digits (0, 0%Z) s in
  if count =? 0 then NaN
  else num (if negative then - n else n)%Z.

(** The exponent part of a decimal literal ([e], a sign, digits); 0 when
    there is none. *)
Definition read_exponent (s : string) : Z :=
  match s with
  | String c rest =>
      if (code c =? 101) || (code c =? 69) then
        let '(negative, s') := read_sign rest in
        let '((count, n), _) := read_digits (0, 0%Z) s' in
        if count =? 0 then 0%Z else (if negative then - n else n)%Z
      else 0%Z
  | EmptyString => 0%Z
  end.

Definition starts_with (prefix s : string) : bool :=
  String.eqb (substring 0 (String.length prefix) s) prefix.

Definition parseFloat (value : string) : JSNumber :=
  let '(negative, s) := read_sign (skip_spaces value) in
  if starts_with "Infinity" s then Infinity negative
  else
    let '((icount, ipart), s1) := read_digits (0, 0%Z) s in
    let '((fcount, fpart), s2) :=
      match s1 with
      | String c rest => if is_dot c then read_digits (0, 0%Z) rest else ((0, 0%Z), s1)
      | EmptyString => ((0, 0%Z), s1)
      end in
    if (icount =? 0) && (fcount =? 0) then NaN
    else
      let mantissa := (ipart * 10 ^ Z.of_nat fcount + fpart)%Z in
      let exponent := (read_exponent s2 - Z.of_nat fcount)%Z in
      let magnitude := (inject_Z mantissa * Qpower (inject_Z 10) exponent)%Q in
      Finite (Qred (if negative then - magnitude else magnitude)%Q).

(** ** [CliMan.parsers] *)

Definition Parser : Type := string -> JSValue.

Module parsers.

Definition integer : Parser := fun value =>
  if full_match integer_re value then VNum (parseInt value) else VNull.

Definition number : Parser := fun value =>
  if number_re_test value then VNum (parseFloat value) else VNull.

Definition range (min : JSNumber) (max : option JSNumber) (integer_only : bool) : Parser :=
  fun value =>
    let number := if integer_only then integer value else number value in
    match number with
    | VNum n =>
        if js_ge n min && match max with None => true | Some m => js_lt n m end
        then number else VNull
    | _ => VNull
    end.

Definition enum (values : list string) : Parser := fun value =>
  if existsb (String.eqb value) values then VStr value else VNull.

End parsers.

(** ** Specification model *)

(** A handler is an opaque callback, named by an identifier. *)
Definition Handler : Type := string.

(** [CliOption] as the resolver sees it at run time: every field of the
    four shapes, absent ones being [None] or [false]. *)
Record CliOption := {
  o_name : string;
  o_symbol : option string;
  o_help : option string;
  o_boolean : bool;
  o_handler : option Handler;
  o_valueName : option string;
  o_parser : option Parser;
  o_default : option string;
  o_repeatable : bool;
  o_required : bool
}.

Record CliParameter := {
  p_name : string;
  p_help : option string;
  p_parser : option Parser;
  p_default : option string;
  p_repeatable : bool;
  p_optional : bool
}.

Inductive CliCommand :=
| SubCommand (name : string) (help extendedHelp : option string)
    (options : option (list CliOption)) (commands : list CliCommand)
| ActionCommand (name : string) (help extendedHelp : option string)
    (options : option (list CliOption)) (parameters : option (list CliParameter))
    (handler : Handler).

Definition c_name (command : CliCommand) : string :=
  match command with
  | SubCommand n _ _ _ _ | ActionCommand n _ _ _ _ _ => n
  end.

Definition c_help (command : CliCommand) : option string :=
  match command with
  | SubCommand _ h _ _ _ | ActionCommand _ h _ _ _ _ => h
  end.

Definition c_extendedHelp (command : CliCommand) : option string :=
  match command with
  | SubCommand _ _ e _ _ | ActionCommand _ _ e _ _ _ => e
  end.

Definition c_options (command : CliCommand) : option (list CliOption) :=
  match command with
  | SubCommand _ _ _ o _ | ActionCommand _ _ _ o _ _ => o
  end.

Definition c_commands (command : CliCommand) : option (list CliCommand) :=
  match command with
  | SubCommand _ _ _ _ cs => Some cs
  | ActionCommand _ _ _ _ _ _ => None
  end.

Definition c_parameters (command : CliCommand) : option (list CliParameter) :=
  match command with
  | SubCommand _ _ _ _ _ => None
  | ActionCommand _ _ _ _ ps _ => ps
  end.

Definition c_handler (command : CliCommand) : option Handler :=
  match command with
  | SubCommand _ _ _ _ _ => None
  | ActionCommand _ _ _ _ _ h => Some h
  end.

(** Truthiness of an optional string: present and not empty. *)
Definition truthy (s : option string) : bool :=
  match s with
  | Some (String _ _) => true
  | _ => false
  end.

Definition or_else (s : option string) (fallback : string) : string :=
  if truthy s then default fallback s else fallback.

(** Height of the command tree below (and including) a node. *)
Fixpoint height (command : CliCommand) : nat :=
  match command with
  | SubCommand _ _ _ _ cs => S (foldr (fun c h => Nat.max (height c) h) 0 cs)
  | ActionCommand _ _ _ _ _ _ => 1
  end.

(** ** Help renderer *)

Definition nl : string := String (ascii_of_nat 10) EmptyString.

(** [s.padEnd(n, " ")] *)
Definition padEnd (s : string) (n : nat) : string :=
  s +:+ string_of_list_ascii (repeat " "%char (n - String.length s)).

(** [list.join(sep)] *)
Definition join (sep : string) (l : list string) : string := String.concat sep l.

Definition helpOption (option : CliOption) : string :=
  let base :=
    (if truthy (o_symbol option) then "-" +:+ default "" (o_symbol option) +:+ ", " else "")
    +:+ "--" +:+ fromCamel (o_name option) in
  if o_boolean option then base
  else
    let value :=
      "<" +:+ or_else (o_valueName option) "value"
      +:+ (if truthy (o_default option) then "=" +:+ default "" (o_default option) else "")
      +:+ ">" +:+ (if o_repeatable option then ", +" else "") in
    base +:+ " " +:+ value.

Definition helpParameter (parameter : CliParameter) : string :=
  let value :=
    fromCamel (p_name parameter)
    +:+ (if truthy (p_default parameter) then "=" +:+ default "" (p_default parameter) else "") in
  (if p_optional parameter || truthy (p_default parameter)
   then "[" +:+ value +:+ "]" else "<" +:+ value +:+ ">")
  +:+ (if p_repeatable parameter then "+" else "").

(** A titled block of (signature, help text) pairs. *)
Definition Group : Type := string * list (string * string).

(** The body of the inner loop of [helpOptions]: [st] is [padding], the
    pairs of [groups[0]] and the pairs of the command at hand. *)
Definition helpOptions_option (st : nat * list (string * string) * list (string * string))
    (option : CliOption) : nat * list (string * string) * list (string * string) :=
  let '(padding, required, pairs) := st in
  let base := helpOption option in
  let padding := Nat.max (String.length base) padding in
  let entry := (base, or_else (o_help option) "") in
  if o_required option then (padding, required ++ [entry], pairs)
  else (padding, required, pairs ++ [entry]).

(** The body of the outer loop, at index [i] of a path of length [len];
    [st] is [padding], the pairs of [groups[0]] and the groups after it. *)
Definition helpOptions_command (len : nat) (st : nat * list (string * string) * list Group)
    (ic : nat * CliCommand) : nat * list (string * string) * list Group :=
  let '(padding, required, groups) := st in
  let '(i, command) := ic in
  match c_options command with
  | None => st
  | Some options =>
      let '(padding, required, pairs) :=
        fold_left helpOptions_option options (padding, required, []) in
      if length pairs =? 0 then (padding, required, groups)
      else
        let name :=
          if i =? len - 1 then "Options"
          else if i =? 0 then "Global options"
          else "Inherited options (" +:+ fromCamel (c_name command) +:+ ")" in
        (padding, required, groups ++ [(name, pairs)])
  end.

(** The path with its indices, in the order [i = path.length - 1 .. 0]. *)
Definition scan_order (path : list CliCommand) : list (nat * CliCommand) :=
  rev (combine (seq 0 (length path)) path).

(** [padding] and [groups] as they stand before the rendering loop. *)
Definition helpGroups (path : list CliCommand) : nat * list Group :=
  let '(padding, required, groups) :=
    fold_left (helpOptions_command (length path)) (scan_order path) (0, [], []) in
  (Nat.min padding 80,
   if length required =? 0 then groups else ("Required options", required) :: groups).

Definition renderPair (padding : nat) (pair : string * string) : string :=
  "  " +:+ padEnd (fst pair) padding +:+ " : " +:+ snd pair.

Definition renderGroup (padding : nat) (group : Group) : string :=
  nl +:+ nl +:+ fst group +:+ ":" +:+ nl +:+ join nl (map (renderPair padding) (snd group)).

Definition helpOptions (path : list CliCommand) : string :=
  let '(padding, groups) := helpGroups path in
  fold_left (fun output group => output +:+ renderGroup padding group) groups "".

Definition helpCommand (command : CliCommand) : string :=
  match command with
  | ActionCommand name _ _ _ (Some parameters) _ =>
      fromCamel name +:+ " " +:+ join " " (map helpParameter parameters)
  | ActionCommand name _ _ _ None _ => fromCamel name
  | SubCommand name _ _ _ _ => fromCamel name +:+ " (...)"
  end.

Definition max_length (l : list string) : nat :=
  fold_left (fun a b => Nat.max a (String.length b)) l 0.

(** [help(path)]; [None] stands for the [TypeError] of an empty path. *)
Definition help (path : list CliCommand) : option string :=
  match last path with
  | None => None
  | Some command =>
      let output :=
        "usage: "
        +:+ (if 1 <? length path
             then join " " (map (fun c => fromCamel (c_name c)) (removelast path)) +:+ " "
             else "")
        +:+ helpCommand command in
      let output :=
        if truthy (c_help command) then output +:+ nl +:+ nl +:+ default "" (c_help command)
        else output in
      let output :=
        if truthy (c_extendedHelp command)
        then output +:+ nl +:+ nl +:+ default "" (c_extendedHelp command)
        else output in
      let output :=
        match c_parameters command with
        | Some parameters =>
            let padding := max_length (map (fun p => fromCamel (p_name p)) parameters) in
            output +:+ nl +:+ nl +:+ "Parameters:" +:+ nl
            +:+ join nl (map (fun p => "  " +:+ padEnd (fromCamel (p_name p)) padding
                                        +:+ " : " +:+ or_else (p_help p) "") parameters)
        | None => output
        end in
      let output :=
        match c_commands command with
        | Some commands =>
            let rows := map (fun c => (helpCommand c, or_else (c_help c) "")) commands in
            let padding := max_length (map fst rows) in
            output +:+ nl +:+ nl +:+ "Commands:" +:+ nl
            +:+ join nl (map (fun x => "  " +:+ padEnd (fst x) padding +:+ " : " +:+ snd x) rows)
        | None => output
        end in
      Some (output +:+ helpOptions path)
  end.

(** ** Resolver *)

(** What a run ends in: a call of a handler (always in tail position in the
    source: [return option.handler(..)], [return cmd.handler(..)]), a
    [CliParseError], or a JavaScript [TypeError] raised by an ill-formed
    configuration. *)
Inductive Invocation :=
| OptionHandler (handler : Handler) (value : option JSValue) (path : list CliCommand)
| LeafHandler (handler : Handler) (parameters : list JSValue)
    (options : gmap string JSValue) (path : list CliCommand).

Inductive Outcome :=
| Return (call : Invocation)
| CliParseError (path : list CliCommand) (message : string)
| TypeError.

(** The local variables of one activation of [parserRun]. *)
Record Frame := {
  f_args : list string;
  f_i : nat;
  f_command : CliCommand;
  f_path : list CliCommand;
  f_options : gmap string JSValue;
  f_parameters : list JSValue;
  f_currentParameterIndex : nat
}.

Definition quoted (s : string) : string :=
  String (ascii_of_nat 34) s +:+ String (ascii_of_nat 34) EmptyString.

(** Lines 204-217: one round of the loop over [command.options]. *)
Definition primeOption (options : gmap string JSValue) (option : CliOption)
    : gmap string JSValue :=
  if truthy (o_default option) then
    let raw := default EmptyString (o_default option) in
    <[o_name option := match o_parser option with
                       | Some parser => parser raw
                       | None => VStr raw
                       end]> options
  else if o_repeatable option then <[o_name option := VArr []]> options
  else if o_boolean option && negb (bool_decide (is_Some (o_handler option)))
       then <[o_name option := VBool false]> options
  else options.

Definition primeOptions (command : CliCommand) (options : gmap string JSValue)
    : gmap string JSValue :=
  match c_options command with
  | Some declared => fold_left primeOption declared options
  | None => options
  end.

(** Lines 225-241: the initial value of one positional slot. *)
Definition primeParameter (parameter : CliParameter) : JSValue :=
  if truthy (p_default parameter) then
    let raw := default EmptyString (p_default parameter) in
    match p_parser parameter with
    | Some parser => parser raw
    | None => VStr raw
    end
  else if p_repeatable parameter then VArr []
  else if p_optional parameter then VUndefined
  else VNull.

Definition primeParameters (command : CliCommand) : list JSValue :=
  match c_parameters command with
  | Some declared => map primeParameter declared
  | None => []
  end.

(** Lines 199-246: entering [command]. *)
Definition enter (args : list string) (command : CliCommand) (path : list CliCommand)
    (options : gmap string JSValue) : Frame :=
  {| f_args := args;
     f_i := 0;
     f_command := command;
     f_path := path ++ [command];
     f_options := primeOptions command options;
     f_parameters := primeParameters command;
     f_currentParameterIndex := 0 |}.

(** The scan [for (i = path.length - 1; i >= 0 && option === undefined; ..)],
    on the reversed path. *)
Fixpoint scanOptions (outward : list CliCommand) (p : CliOption -> bool) : option CliOption :=
  match outward with
  | [] => None
  | command :: outer =>
      match c_options command ≫= List.find p with
      | Some option => Some option
      | None => scanOptions outer p
      end
  end.

Definition findOption (path : list CliCommand) (p : CliOption -> bool) : option CliOption :=
  scanOptions (rev path) p.

Definition has_symbol (c : ascii) (option : CliOption) : bool :=
  match o_symbol option with
  | Some s => String.eqb s (String c EmptyString)
  | None => false
  end.

Inductive Selection :=
| InvalidArgument
| UnknownOption
| Selected (option : CliOption).

(** Lines 256-276, for [arg = "-" + tail]. *)
Definition selectOption (path : list CliCommand) (tail : string) : Selection :=
  match tail with
  | String c rest =>
      if is_hyphen c then
        let name := toCamel rest in
        match findOption path (fun opt => String.eqb (o_name opt) name) with
        | Some option => Selected option
        | None => UnknownOption
        end
      else
        match rest with
        | EmptyString =>
            match findOption path (has_symbol c) with
            | Some option => Selected option
            | None => UnknownOption
            end
        | String _ _ => InvalidArgument
        end
  | EmptyString => InvalidArgument
  end.

(** [container.push(value)]; [None] is the [TypeError] of a receiver that
    is not an array. *)
Definition push (container : option JSValue) (value : JSValue) : option JSValue :=
  match container with
  | Some (VArr elements) => Some (VArr (elements ++ [value]))
  | _ => None
  end.

Definition is_null (v : JSValue) : bool :=
  match v with
  | VNull => true
  | _ => false
  end.

Definition apply_parser (parser : option Parser) (raw : string) : JSValue :=
  match parser with
  | Some f => f raw
  | None => VStr raw
  end.

Definition with_options (fr : Frame) (i : nat) (options : gmap string JSValue) : Frame :=
  {| f_args := f_args fr; f_i := i; f_command := f_command fr; f_path := f_path fr;
     f_options := options; f_parameters := f_parameters fr;
     f_currentParameterIndex := f_currentParameterIndex fr |}.

Definition with_parameters (fr : Frame) (i : nat) (parameters : list JSValue)
    (index : nat) : Frame :=
  {| f_args := f_args fr; f_i := i; f_command := f_command fr; f_path := f_path fr;
     f_options := f_options fr; f_parameters := parameters;
     f_currentParameterIndex := index |}.

(** Lines 278-312: the option [option] was named by [arg]. *)
Definition optionStep (fr : Frame) (arg : string) (option : CliOption) : Frame + Outcome :=
  let i := f_i fr in
  if o_boolean option then
    match o_handler option with
    | Some handler => inr (Return (OptionHandler handler None (f_path fr)))
    | None => inl (with_options fr (i + 1) (<[o_name option := VBool true]> (f_options fr)))
    end
  else
    match f_args fr !! (i + 1) with
    | None =>
        inr (CliParseError (f_path fr) ("option " +:+ quoted arg +:+ " requires a value"))
    | Some raw =>
        let value := apply_parser (o_parser option) raw in
        if is_null value then
          inr (CliParseError (f_path fr)
                 ("invalid value " +:+ quoted raw +:+ " for option " +:+ quoted arg))
        else
          match o_handler option with
          | Some handler => inr (Return (OptionHandler handler (Some value) (f_path fr)))
          | None =>
              if o_repeatable option then
                match push (f_options fr !! o_name option) value with
                | Some array =>
                    inl (with_options fr (i + 2) (<[o_name option := array]> (f_options fr)))
                | None => inr TypeError
                end
              else inl (with_options fr (i + 2) (<[o_name option := value]> (f_options fr)))
          end
    end.

(** Lines 326-352: a positional token at an action command. *)
Definition parameterStep (fr : Frame) (arg : string)
    (declared : option (list CliParameter)) : Frame + Outcome :=
  let index := f_currentParameterIndex fr in
  match declared ≫= (fun ps => ps !! index) with
  | None => inr (CliParseError (f_path fr) ("unexpected Parameter " +:+ quoted arg))
  | Some parameter =>
      let value := apply_parser (p_parser parameter) arg in
      if is_null value then
        inr (CliParseError (f_path fr)
               ("invalid value " +:+ quoted arg +:+ " for Parameter "
                +:+ quoted (fromCamel (p_name parameter))))
      else if p_repeatable parameter then
        match push (f_parameters fr !! index) value with
        | Some array =>
            inl (with_parameters fr (f_i fr + 1) (<[index := array]> (f_parameters fr)) index)
        | None => inr TypeError
        end
      else
        inl (with_parameters fr (f_i fr + 1) (<[index := value]> (f_parameters fr)) (index + 1))
  end.

(** Lines 314-352: [arg] does not start with a dash. *)
Definition positionalStep (fr : Frame) (arg : string) : Frame + Outcome :=
  match f_command fr with
  | SubCommand _ _ _ _ commands =>
      match List.find (fun x => String.eqb (c_name x) (toCamel arg)) commands with
      | None => inr (CliParseError (f_path fr) ("unrecognized command " +:+ quoted arg))
      | Some next =>
          inl (enter (drop (f_i fr + 1) (f_args fr)) next (f_path fr) (f_options fr))
      end
  | ActionCommand _ _ _ _ declared _ => parameterStep fr arg declared
  end.

(** Lines 250-352: one round of the loop over [args], at [arg = args[i]]. *)
Definition iteration (fr : Frame) (arg : string) : Frame + Outcome :=
  match arg with
  | String c tail =>
      if is_hyphen c then
        match selectOption (f_path fr) tail with
        | InvalidArgument =>
            inr (CliParseError (f_path fr) ("invalid argument " +:+ quoted arg))
        | UnknownOption =>
            inr (CliParseError (f_path fr) ("unknown option " +:+ quoted arg))
        | Selected option => optionStep fr arg option
        end
      else positionalStep fr arg
  | EmptyString => positionalStep fr arg
  end.

(** The result of a validation pass; [Crash] is a [TypeError]. *)
Inductive Check :=
| Pass
| Fail (message : string)
| Crash.

(** [v.length == 0]; [None] is the [TypeError] of reading a property of
    [undefined] or [null]. *)
Definition length_is_zero (v : JSValue) : option bool :=
  match v with
  | VArr elements => Some (length elements =? 0)
  | VStr s => Some (String.length s =? 0)
  | VBool _ | VNum _ => Some false
  | VUndefined | VNull => None
  end.

Definition check_empty (v : option JSValue) (message : string) : Check :=
  match v ≫= length_is_zero with
  | Some true => Fail message
  | Some false => Pass
  | None => Crash
  end.

(** [parameters.indexOf(null)] *)
Fixpoint indexOfNull (values : list JSValue) : option nat :=
  match values with
  | [] => None
  | v :: rest => if is_null v then Some 0 else S <$> indexOfNull rest
  end.

Definition missingParameter (name : string) : string :=
  "no value provided for required Parameter " +:+ quoted (fromCamel name).

(** Lines 362-374. *)
Definition checkParameters (declared : option (list CliParameter))
    (values : list JSValue) : Check :=
  match declared with
  | Some ((_ :: _) as ps) =>
      let last := length ps - 1 in
      match indexOfNull values with
      | Some k =>
          match ps !! k with
          | Some p => Fail (missingParameter (p_name p))
          | None => Crash
          end
      | None =>
          match ps !! last with
          | Some p =>
              if p_repeatable p && negb (p_optional p)
              then check_empty (values !! last) (missingParameter (p_name p))
              else Pass
          | None => Crash
          end
      end
  | _ => Pass
  end.

Definition missingOption (name : string) : string :=
  "missing required option " +:+ quoted ("--" +:+ fromCamel name).

(** The members a plain object inherits from [Object.prototype]: the
    functions with their [length], and the accessor [__proto__], whose
    value, the prototype itself, has no [length]. *)
Definition object_prototype : list (string * option nat) :=
  [ ("constructor", Some 1); ("__defineGetter__", Some 2); ("__defineSetter__", Some 2);
    ("hasOwnProperty", Some 1); ("__lookupGetter__", Some 1); ("__lookupSetter__", Some 1);
    ("isPrototypeOf", Some 1); ("propertyIsEnumerable", Some 1); ("toString", Some 0);
    ("valueOf", Some 0); ("__proto__", None); ("toLocaleString", Some 0) ].

Definition inherited (name : string) : option (option nat) :=
  snd <$> List.find (fun member => String.eqb (fst member) name) object_prototype.

(** [name in options]: an own property, or an inherited member. *)
Definition js_in (name : string) (options : gmap string JSValue) : bool :=
  match options !! name with
  | Some _ => true
  | None => bool_decide (is_Some (inherited name))
  end.

(** [options[name].length == 0], read through the prototype; [None] is
    the [TypeError] of reading a property of [undefined] or [null]. *)
Definition member_is_empty (name : string) (options : gmap string JSValue) : option bool :=
  match options !! name with
  | Some v => length_is_zero v
  | None =>
      match inherited name with
      | Some (Some arity) => Some (arity =? 0)
      | Some None => Some false
      | None => None
      end
  end.

(** Line 381, for one option. *)
Definition checkOption (options : gmap string JSValue) (option : CliOption) : Check :=
  if o_required option then
    if negb (js_in (o_name option) options) then Fail (missingOption (o_name option))
    else if o_repeatable option then
      match member_is_empty (o_name option) options with
      | Some true => Fail (missingOption (o_name option))
      | Some false => Pass
      | None => Crash
      end
    else Pass
  else Pass.

Fixpoint checkOptions (options : gmap string JSValue) (declared : list CliOption) : Check :=
  match declared with
  | [] => Pass
  | option :: rest =>
      match checkOption options option with
      | Pass => checkOptions options rest
      | failure => failure
      end
  end.

(** Lines 378-386: every command of the path, root first. *)
Fixpoint checkPath (options : gmap string JSValue) (path : list CliCommand) : Check :=
  match path with
  | [] => Pass
  | command :: rest =>
      match checkOptions options (default [] (c_options command)) with
      | Pass => checkPath options rest
      | failure => failure
      end
  end.

(** Lines 355-393: all of [args] has been consumed. *)
Definition finish (fr : Frame) : Outcome :=
  match f_command fr with
  | ActionCommand _ _ _ _ declared handler =>
      match checkParameters declared (f_parameters fr) with
      | Fail message => CliParseError (f_path fr) message
      | Crash => TypeError
      | Pass =>
          match checkPath (f_options fr) (f_path fr) with
          | Fail message => CliParseError (f_path fr) message
          | Crash => TypeError
          | Pass =>
              Return (LeafHandler handler (f_parameters fr) (f_options fr) (f_path fr))
          end
      end
  | SubCommand _ _ _ _ _ => CliParseError (f_path fr) EmptyString
  end.

(** One transition of the resolver: a round of the loop while [i <
    args.length], the end-of-input part after it. *)
Definition step (fr : Frame) : Frame + Outcome :=
  match f_args fr !! f_i fr with
  | Some arg => iteration fr arg
  | None => inr (finish fr)
  end.

Fixpoint run (fuel : nat) (fr : Frame) : option Outcome :=
  match fuel with
  | 0 => None
  | S fuel' =>
      match step fr with
      | inl fr' => run fuel' fr'
      | inr outcome => Some outcome
      end
  end.

(** Tokens not yet looked at. *)
Definition remaining (fr : Frame) : nat := length (f_args fr) - f_i fr.

Definition parserRun (args : list string) (command : CliCommand) (path : list CliCommand)
    (options : gmap string JSValue) : option Outcome :=
  run (S (length args)) (enter args command path options).

(** ** Entry facade *)

Inductive Effect :=
| Invoke (call : Invocation)
| ConsoleError (text : string)
| ConsoleInfo (text : string).

(** What [CliMan.run] did: the effects in order, and whether it returned
    normally ([true]) or let an exception escape ([false]). *)
Definition Trace : Type := list Effect * bool.

(** Lines 404-415: the [catch] clause. *)
Definition report (path : list CliCommand) (message : string) : Trace :=
  let errors :=
    match message with
    | EmptyString => []
    | String _ _ => [ConsoleError ("error: " +:+ message +:+ nl)]
    end in
  match help path with
  | Some text => (errors ++ [ConsoleInfo text], true)
  | None => (errors, false)
  end.

Definition CliMan_run (config : CliCommand) (args : list string) : option Trace :=
  match parserRun args config [] ∅ with
  | Some (Return call) => Some ([Invoke call], true)
  | Some (CliParseError path message) => Some (report path message)
  | Some TypeError => Some ([], false)
  | None => None
  end.

Definition CliMan_runNoWrapper (config : CliCommand) (args : list string) : option Outcome :=
  parserRun args config [] ∅.

(** ** The configuration of [examples/forest.ts] *)

Module forest.

Definition opt (name : string) (symbol help : option string) : CliOption :=
  {| o_name := name; o_symbol := symbol; o_help := help; o_boolean := false;
     o_handler := None; o_valueName := None; o_parser := None; o_default := None;
     o_repeatable := false; o_required := false |}.

Definition flag (name : string) (symbol help : option string)
    (handler : option Handler) : CliOption :=
  {| o_name := name; o_symbol := symbol; o_help := help; o_boolean := true;
     o_handler := handler; o_valueName := None; o_parser := None; o_default := None;
     o_repeatable := false; o_required := false |}.

Definition param (name : string) (help : option string) : CliParameter :=
  {| p_name := name; p_help := help; p_parser := None; p_default := None;
     p_repeatable := false; p_optional := false |}.

Definition helpOpt : CliOption :=
  flag "help" (Some "h") (Some "display help and exit") (Some "CliMan.help").
Definition version : CliOption :=
  flag "version" None (Some "display application version and exit") (Some "version").
Definition verbose : CliOption := flag "verbose" (Some "v") (Some "enable verbose output") None.

Definition dryRun : CliOption :=
  flag "dryRun" None (Some "to a test run without changing any actual state") None.

Definition sectorId : CliOption :=
  {| o_name := "sectorId"; o_symbol := Some "s";
     o_help := Some "destination forest sector to add object"; o_boolean := false;
     o_handler := None; o_valueName := None; o_parser := Some parsers.integer;
     o_default := None; o_repeatable := false; o_required := true |}.

Definition type : CliOption :=
  {| o_name := "type"; o_symbol := Some "t"; o_help := Some "type of tree to add";
     o_boolean := false; o_handler := None; o_valueName := Some "TYPE";
     o_parser := Some (parsers.enum ["pine"; "oak"; "maple"; "willow"]);
     o_default := Some "pine"; o_repeatable := false; o_required := false |}.

Definition count : CliOption :=
  {| o_name := "count"; o_symbol := Some "c";
     o_help := Some "amount of trees to add (max 10)"; o_boolean := false;
     o_handler := None; o_valueName := Some "N";
     o_parser := Some (parsers.range (num 1) (Some (num 10)) true);
     o_default := Some "1"; o_repeatable := false; o_required := false |}.

Definition useFertilizer : CliOption :=
  {| o_name := "useFertilizer"; o_symbol := Some "f";
     o_help := Some "use a fertilizer during planting, can be repeated to use multiple fertilizers";
     o_boolean := false; o_handler := None; o_valueName := Some "NAME"; o_parser := None;
     o_default := None; o_repeatable := true; o_required := false |}.

Definition tree : CliCommand :=
  ActionCommand "tree" (Some "add a tree(s) to a forest sector") None
    (Some [type; count; useFertilizer]) None "printArgs".

Definition species : CliParameter :=
  {| p_name := "species";
     p_help := Some "specie of the specimen to add, multiple values can be passed";
     p_parser := None; p_default := None; p_repeatable := true; p_optional := true |}.

Definition animal : CliCommand :=
  ActionCommand "animal" (Some "add an animal(s) to a forest sector") None None
    (Some [species]) "printArgs".

Definition add : CliCommand :=
  SubCommand "add" (Some "add objects to the forest") None
    (Some [dryRun; sectorId]) [tree; animal].

Definition all : CliOption :=
  flag "all" (Some "a")
    (Some "when source ambiguous move all matching objects instead of failing") None.

Definition object : CliParameter := param "object" (Some "name of object to be moved").

Definition destination : CliParameter :=
  {| p_name := "destination"; p_help := Some "destination sector id";
     p_parser := Some parsers.integer; p_default := Some "1";
     p_repeatable := false; p_optional := false |}.

Definition source : CliParameter :=
  {| p_name := "source";
     p_help := Some "source sector id, can be omitted when object is present only in one sector or if --all flag is used";
     p_parser := Some parsers.integer; p_default := None;
     p_repeatable := false; p_optional := true |}.

Definition move : CliCommand :=
  ActionCommand "move" (Some "move objects between forest sectors")
    (Some "Warning! Operator must make sure the dentation forest sector has correct habitat for the moved object!")
    (Some [all]) (Some [object; destination; source]) "printArgs".

Definition config : CliCommand :=
  SubCommand "forest" (Some "national forest manager cli") None
    (Some [helpOpt; version; verbose]) [add; move].

(** The options [tree]'s handler receives for [add -s 4 tree -t oak]. *)
Definition oak_options : gmap string JSValue :=
  {[ "verbose" := VBool false; "dryRun" := VBool false; "sectorId" := VNum (num 4);
     "type" := VStr "oak"; "count" := VNum (num 1); "useFertilizer" := VArr [] ]}.

End forest.

(** ** Vocabulary of the statements *)

(** Frames the resolver passes through, from a given one. *)
Inductive steps : Frame -> Frame -> Prop :=
| steps_here fr : steps fr fr
| steps_next fr fr' fr'' : steps fr fr' -> step fr' = inl fr'' -> steps fr fr''.

Definition is_child (parent child : CliCommand) : Prop :=
  exists commands, c_commands parent = Some commands /\ child ∈ commands.

(** [descends root path current]: [path] runs from [root] to [current],
    every node being a child of the one before it. *)
Inductive descends (root : CliCommand) : list CliCommand -> CliCommand -> Prop :=
| descends_root : descends root [root] root
| descends_child path current next :
    descends root path current -> is_child current next ->
    descends root (path ++ [next]) next.






Definition invocations (trace : Trace) : list Invocation :=
  omap (fun e => match e with Invoke call => Some call | _ => None end) (fst trace).

(** The shape the specification gives for [number]: an optional sign, then
    a leading-dot decimal or an integer with an optional fractional part. *)
Definition number_shape : regex :=
  RCat (ROpt (RChar is_sign))
       (RAlt (RCat (RChar is_dot) (RPlus (RChar is_digit)))
             (RCat (RPlus (RChar is_digit))
                   (ROpt (RCat (RChar is_dot) (RPlus (RChar is_digit)))))).

(** The options blocks as the specification words them. *)
Definition entry (option : CliOption) : string * string :=
  (helpOption option, or_else (o_help option) EmptyString).

Definition declared_options (command : CliCommand) : list CliOption :=
  default [] (c_options command).

Definition required_entries (path : list CliCommand) : list (string * string) :=
  concat (map (fun command => map entry (filter (fun o => o_required o = true)
                                                 (declared_options command)))
              (rev path)).

Definition group_name (len i : nat) (command : CliCommand) : string :=
  if i =? len - 1 then "Options"
  else if i =? 0 then "Global options"
  else "Inherited options (" +:+ fromCamel (c_name command) +:+ ")".

Definition own_group (len : nat) (ic : nat * CliCommand) : option Group :=
  match map entry (filter (fun o => o_required o = false) (declared_options (snd ic))) with
  | [] => None
  | pairs => Some (group_name len (fst ic) (snd ic), pairs)
  end.

Definition groups_spec (path : list CliCommand) : list Group :=
  match required_entries path with
  | [] => []
  | required => [("Required options", required)]
  end ++ omap (own_group (length path)) (scan_order path).

Definition widths (options : list CliOption) : list nat :=
  map (fun o => String.length (helpOption o)) options.

(** The longest option signature of the path. *)
Definition signature_width (path : list CliCommand) : nat :=
  foldr Nat.max 0 (widths (concat (map declared_options path))).

(** What holds of every frame of a run started at [root] with an empty
    path: the path leads from the root to the command at hand, [i] is
    within [args], there is one slot per declared parameter, and the
    scalar slots at and after the cursor still hold their initial value. *)
Definition declared_parameters (command : CliCommand) : list CliParameter :=
  default [] (c_parameters command).

Definition well_formed (root : CliCommand) (fr : Frame) : Prop :=
  descends root (f_path fr) (f_command fr)
  /\ f_i fr <= length (f_args fr)
  /\ length (f_parameters fr) = length (declared_parameters (f_command fr))
  /\ forall k p,
       declared_parameters (f_command fr) !! k = Some p ->
       f_currentParameterIndex fr <= k -> p_repeatable p = false ->
       f_parameters fr !! k = Some (primeParameter p).

(** An option, or a parameter, with another default and parser, all else
    equal. *)
Definition o_override (o : CliOption) (default : option string)
    (parser : option Parser) : CliOption :=
  {| o_name := o_name o; o_symbol := o_symbol o; o_help := o_help o;
     o_boolean := o_boolean o; o_handler := o_handler o;
     o_valueName := o_valueName o; o_parser := parser; o_default := default;
     o_repeatable := o_repeatable o; o_required := o_required o |}.

Definition p_override (p : CliParameter) (default : option string)
    (parser : option Parser) : CliParameter :=
  {| p_name := p_name p; p_help := p_help p; p_parser := parser;
     p_default := default; p_repeatable := p_repeatable p;
     p_optional := p_optional p |}.



(** ** Small configurations used as test inputs *)

Module samples.










(** A required option declared on two commands of one path. *)
Definition token : CliOption :=
  {| o_name := "token"; o_symbol := None; o_help := None; o_boolean := false;
     o_handler := None; o_valueName := None; o_parser := None; o_default := None;
     o_repeatable := false; o_required := true |}.

Definition deploy : CliCommand := ActionCommand "deploy" None None (Some [token]) None "deploy".

Definition cloud : CliCommand := SubCommand "cloud" None None (Some [token]) [deploy].

(** A required option whose name is that of a member of [Object.prototype]. *)
Definition heir : CliOption :=
  {| o_name := "constructor"; o_symbol := None; o_help := None; o_boolean := false;
     o_handler := None; o_valueName := None; o_parser := None; o_default := None;
     o_repeatable := false; o_required := true |}.

Definition build : CliCommand := ActionCommand "build" None None (Some [heir]) None "build".

(** Defaults that are the empty string. *)
Definition quiet_mode : CliOption :=
  {| o_name := "mode"; o_symbol := None; o_help := None; o_boolean := false;
     o_handler := None; o_valueName := None; o_parser := Some parsers.integer;
     o_default := Some EmptyString; o_repeatable := false; o_required := false |}.

Definition target : CliParameter :=
  {| p_name := "target"; p_help := None; p_parser := Some parsers.integer;
     p_default := Some EmptyString; p_repeatable := false; p_optional := false |}.

Definition copy : CliCommand :=
  ActionCommand "copy" None None (Some [quiet_mode]) (Some [target]) "copy".

End samples.

(** ** Vocabulary of the further properties *)

(** [arg[0] == "-"] *)
Definition starts_with_dash (arg : string) : bool :=
  match arg with
  | String c _ => is_hyphen c
  | EmptyString => false
  end.

Definition no_hyphen (s : string) : bool :=
  all_chars (fun c => negb (is_hyphen c)) s.

(** The frame [fr] of a run on [args ++ suffix] instead of [args]. *)
Definition extend (suffix : list string) (fr : Frame) : Frame :=
  {| f_args := f_args fr ++ suffix; f_i := f_i fr; f_command := f_command fr;
     f_path := f_path fr; f_options := f_options fr; f_parameters := f_parameters fr;
     f_currentParameterIndex := f_currentParameterIndex fr |}.

(** Every row of the options blocks of [help(path)], group after group. *)
Definition rendered_rows (path : list CliCommand) : list (string * string) :=
  concat (map snd (snd (helpGroups path))).

(** Every option declared along the path. *)
Definition path_options (path : list CliCommand) : list CliOption :=
  concat (map declared_options path).

(** The printed form of the options blocks: a row is two spaces, the
    signature, spaces up to the width of the signature column, the
    separator and the help text; a block is an empty line, the title with a
    colon, and its rows, one on a line. *)
Definition spaces (n : nat) : string := string_of_list_ascii (repeat " "%char n).

Definition row_line (width : nat) (row : string * string) : string :=
  "  " +:+ fst row +:+ spaces (width - String.length (fst row)) +:+ " : " +:+ snd row.

Definition block_text (width : nat) (block : Group) : string :=
  nl +:+ nl +:+ fst block +:+ ":" +:+ nl +:+ join nl (map (row_line width) (snd block)).

(** The rows a command contributes to the options blocks. *)
Definition required_rows (command : CliCommand) : list (string * string) :=
  map entry (filter (fun o => o_required o = true) (declared_options command)).

Definition other_rows (command : CliCommand) : list (string * string) :=
  map entry (filter (fun o => o_required o = false) (declared_options command)).

(** * Properties *)

(** ** The resolver as a machine *)

(** *** Progress and termination *)

Lemma find_elem_of {A} (p : A -> bool) (l : list A) (x : A) :
  List.find p l = Some x -> x ∈ l /\ p x = true.
Proof.
  intros H. apply find_some in H as [Hin Hp]. split; [by apply list_elem_of_In | done].
Qed.

(** The three ways a transition continues. *)
Lemma step_cases fr fr' :
  step fr = inl fr' ->
  (exists i options, fr' = with_options fr i options /\ f_i fr < i <= length (f_args fr))
  \/ (exists p v,
        declared_parameters (f_command fr) !! f_currentParameterIndex fr = Some p
        /\ f_i fr < length (f_args fr)
        /\ fr' = with_parameters fr (f_i fr + 1)
                   (<[f_currentParameterIndex fr := v]> (f_parameters fr))
                   (if p_repeatable p then f_currentParameterIndex fr
                    else f_currentParameterIndex fr + 1))
  \/ (exists next, is_child (f_command fr) next
        /\ f_i fr < length (f_args fr)
        /\ fr' = enter (drop (f_i fr + 1) (f_args fr)) next (f_path fr) (f_options fr)).
Proof.
  unfold step. destruct (f_args fr !! f_i fr) as [arg|] eqn:Harg; [|done].
  pose proof (lookup_lt_Some _ _ _ Harg) as Hlt.
  assert (Hpos : forall fr0, positionalStep fr arg = inl fr0 ->
    (exists p v,
        declared_parameters (f_command fr) !! f_currentParameterIndex fr = Some p
        /\ f_i fr < length (f_args fr)
        /\ fr0 = with_parameters fr (f_i fr + 1)
                   (<[f_currentParameterIndex fr := v]> (f_parameters fr))
                   (if p_repeatable p then f_currentParameterIndex fr
                    else f_currentParameterIndex fr + 1))
    \/ (exists next, is_child (f_command fr) next
        /\ f_i fr < length (f_args fr)
        /\ fr0 = enter (drop (f_i fr + 1) (f_args fr)) next (f_path fr) (f_options fr))).
  { intros fr0. unfold positionalStep, declared_parameters.
    destruct (f_command fr) as [n h e o cs | n h e o ps hd] eqn:Hc.
    - destruct (List.find _ cs) as [next|] eqn:Hf; [|done].
      intros [= <-]. right. exists next. split; [|done].
      exists cs. split; [done|]. by apply find_elem_of in Hf as [? _].
    - unfold parameterStep. simpl.
      destruct ps as [ps|]; simpl; [|done].
      destruct (ps !! _) as [p|] eqn:Hp; simpl; [|done].
      destruct (is_null _); [done|].
      destruct (p_repeatable p) eqn:Hrep.
      + destruct (push _ _) as [array|]; [|done]. intros [= <-]. left.
        exists p, array. by rewrite Hrep.
      + intros [= <-]. left. eexists p, _. by rewrite Hrep. }
  unfold iteration. destruct arg as [|c tail]; [intros; right; by apply Hpos|].
  destruct (is_hyphen c); [|intros; right; by apply Hpos].
  destruct (selectOption _ _) as [| |option]; [done|done|].
  unfold optionStep. destruct (o_boolean option).
  - destruct (o_handler option); [done|]. intros [= <-]. left.
    eexists _, _. split; [done|lia].
  - destruct (f_args fr !! (f_i fr + 1)) as [raw|] eqn:Hraw; [|done].
    apply lookup_lt_Some in Hraw.
    destruct (is_null _); [done|]. destruct (o_handler option); [done|].
    destruct (o_repeatable option).
    + destruct (push _ _); [|done]. intros [= <-]. left. eexists _, _. split; [done|lia].
    + intros [= <-]. left. eexists _, _. split; [done|lia].
Qed.

Lemma step_decreases fr fr' : step fr = inl fr' -> remaining fr' < remaining fr.
Proof.
  intros H. unfold remaining.
  apply step_cases in H as [(i & o & -> & Hi) | [(p & v & _ & Hi & ->) | (next & _ & Hi & ->)]];
    simpl; rewrite ?length_drop; lia.
Qed.

(** Enough fuel gives a result. *)
Lemma run_total fuel fr : remaining fr < fuel -> exists outcome, run fuel fr = Some outcome.
Proof.
  revert fr. induction fuel as [|fuel IH]; intros fr Hlt; [lia|].
  simpl. destruct (step fr) as [fr'|outcome] eqn:Hs; [|by eexists].
  apply IH. apply step_decreases in Hs. lia.
Qed.

(** ... and the result does not depend on how much more there is. *)
Lemma run_fuel_irrelevant fuel fuel' fr outcome :
  run fuel fr = Some outcome -> fuel <= fuel' -> run fuel' fr = Some outcome.
Proof.
  revert fuel' fr. induction fuel as [|fuel IH]; intros fuel' fr; [done|].
  intros H Hle. destruct fuel' as [|fuel']; [lia|]. simpl in *.
  destruct (step fr); [|done]. apply IH; [done|lia].
Qed.

Lemma run_step fuel fr fr' outcome :
  step fr = inl fr' -> run fuel fr' = Some outcome -> run (S fuel) fr = Some outcome.
Proof. intros Hs H. simpl. by rewrite Hs. Qed.

Lemma steps_run fr fr' :
  steps fr fr' -> forall fuel outcome,
  run fuel fr' = Some outcome -> exists fuel', run fuel' fr = Some outcome.
Proof.
  induction 1 as [fr | fr fr1 fr2 _ IH Hs]; intros fuel outcome Hrun; [by eexists|].
  apply (IH (S fuel)). by apply (run_step _ _ fr2).
Qed.

(** The outcome of a run from [fr] is the outcome of the run from any
    frame it passes through. *)
Lemma steps_outcome fr fr' outcome :
  steps fr fr' -> step fr' = inr outcome ->
  run (S (remaining fr)) fr = Some outcome.
Proof.
  intros Hsteps Hfinal.
  destruct (steps_run fr fr' Hsteps 1 outcome) as [fuel Hrun].
  { simpl. by rewrite Hfinal. }
  destruct (run_total (S (remaining fr)) fr) as [o Ho]; [lia|].
  rewrite Ho. f_equal.
  pose proof (run_fuel_irrelevant _ (fuel + S (remaining fr)) _ _ Hrun ltac:(lia)) as H1.
  pose proof (run_fuel_irrelevant _ (fuel + S (remaining fr)) _ _ Ho ltac:(lia)) as H2.
  congruence.
Qed.

(** Conversely a run that ends passes through a frame whose transition is
    the end. *)
Lemma run_final fuel fr outcome :
  run fuel fr = Some outcome -> exists fr', steps fr fr' /\ step fr' = inr outcome.
Proof.
  assert (forall fr0, steps fr0 fr -> run fuel fr = Some outcome ->
            exists fr', steps fr0 fr' /\ step fr' = inr outcome) as Hgen.
  { revert fr. induction fuel as [|fuel IH]; intros fr fr0 Hsteps; [done|].
    simpl. destruct (step fr) as [fr1|o] eqn:Hs.
    - apply IH. by eapply steps_next.
    - intros [= ->]. by exists fr. }
  apply Hgen. constructor.
Qed.

Lemma remaining_enter args command path options :
  remaining (enter args command path options) = length args.
Proof. unfold remaining. simpl. lia. Qed.

Lemma parserRun_outcome args command path options fr outcome :
  steps (enter args command path options) fr -> step fr = inr outcome ->
  parserRun args command path options = Some outcome.
Proof.
  intros Hsteps Hfinal. unfold parserRun.
  rewrite <- (remaining_enter args command path options). by eapply steps_outcome.
Qed.

Lemma parserRun_final args command path options outcome :
  parserRun args command path options = Some outcome ->
  exists fr, steps (enter args command path options) fr /\ step fr = inr outcome.
Proof. apply run_final. Qed.

(** *** Invariants *)

Lemma height_child parent child : is_child parent child -> height child < height parent.
Proof.
  intros (cs & Hc & Hin). destruct parent as [n h e o cs' | n h e o ps hd]; [|done].
  simpl in Hc. injection Hc as ->. simpl.
  induction Hin as [c cs | c c' cs _ IH]; simpl; lia.
Qed.

Lemma height_positive command : 0 < height command.
Proof. destruct command; simpl; lia. Qed.

Section Invariants.

Context (root : CliCommand).

Lemma descends_height path current :
  descends root path current -> length path + height current <= height root + 1.
Proof.
  induction 1 as [| path current next _ IH Hchild]; simpl; [lia|].
  apply height_child in Hchild. rewrite length_app. simpl. lia.
Qed.

Lemma descends_last path current :
  descends root path current -> last path = Some current.
Proof. destruct 1; [done|]. by rewrite last_snoc. Qed.

Lemma primeParameters_declared command :
  primeParameters command = map primeParameter (declared_parameters command).
Proof. unfold primeParameters, declared_parameters. by destruct (c_parameters command). Qed.

Lemma enter_well_formed_root args options :
  well_formed root (enter args root [] options).
Proof.
  repeat split; simpl; [constructor | lia | | ].
  - by rewrite primeParameters_declared, length_map.
  - intros k p Hp _ _. rewrite primeParameters_declared, list_lookup_fmap. by rewrite Hp.
Qed.

Lemma step_well_formed fr fr' :
  well_formed root fr -> step fr = inl fr' -> well_formed root fr'.
Proof.
  intros (Hpath & Hi & Hlen & Hslots) Hs.
  apply step_cases in Hs as [(i & o & -> & Hlt) | [(p & v & Hp & Hlt & ->) | (next & Hc & Hlt & ->)]].
  - repeat split; simpl; try done; lia.
  - repeat split; simpl; try done; [lia | by rewrite length_insert |].
    intros k q Hq Hk Hrep.
    assert (k <> f_currentParameterIndex fr) as Hne.
    { intros ->. destruct (p_repeatable p) eqn:E; [congruence | lia]. }
    rewrite list_lookup_insert_ne by done. apply Hslots; [done| |done].
    destruct (p_repeatable p); lia.
  - repeat split; simpl; [by apply (descends_child _ _ (f_command fr)) | lia | |].
    + by rewrite primeParameters_declared, length_map.
    + intros k p Hp _ _. rewrite primeParameters_declared, list_lookup_fmap. by rewrite Hp.
Qed.

Lemma steps_well_formed fr fr' :
  well_formed root fr -> steps fr fr' -> well_formed root fr'.
Proof.
  intros Hwf. induction 1 as [|fr fr1 fr2 _ IH Hs]; [done|].
  exact (step_well_formed _ _ (IH Hwf) Hs).
Qed.

Lemma reachable_well_formed args options fr :
  steps (enter args root [] options) fr -> well_formed root fr.
Proof. apply steps_well_formed, enter_well_formed_root. Qed.

End Invariants.

(** *** Outcomes and the final frame *)

Lemma check_empty_fail v message m : check_empty v message = Fail m -> m = message.
Proof. unfold check_empty. destruct (v ≫= length_is_zero) as [[]|]; congruence. Qed.

Lemma checkParameters_fail declared values m :
  checkParameters declared values = Fail m -> exists name, m = missingParameter name.
Proof.
  unfold checkParameters. destruct declared as [[|p0 ps]|]; try done.
  destruct (indexOfNull values) as [k|].
  - destruct (_ !! k) as [p|]; [|done]. intros [= <-]. by eexists.
  - destruct (_ !! _) as [p|]; [|done].
    destruct (_ && _); [|done]. intros ->%check_empty_fail. by eexists.
Qed.

Lemma checkOption_fail options option m :
  checkOption options option = Fail m -> m = missingOption (o_name option).
Proof.
  unfold checkOption. destruct (o_required option); [|done].
  destruct (negb _); [congruence|].
  destruct (o_repeatable option); [|done].
  destruct (member_is_empty _ _) as [[]|]; congruence.
Qed.

Lemma checkOptions_fail options declared m :
  checkOptions options declared = Fail m -> exists name, m = missingOption name.
Proof.
  induction declared as [|o os IH]; [done|]. simpl.
  destruct (checkOption options o) eqn:E; [done| |done].
  intros [= <-]. apply checkOption_fail in E. by eexists.
Qed.

Lemma checkPath_fail options path m :
  checkPath options path = Fail m -> exists name, m = missingOption name.
Proof.
  induction path as [|c cs IH]; [done|]. simpl.
  destruct (checkOptions options _) eqn:E; [done| |done].
  intros [= <-]. by apply checkOptions_fail in E.
Qed.

(** A round of the loop never calls the handler of the command, and the
    errors it raises have a message. *)
Lemma iteration_outcome fr arg outcome :
  iteration fr arg = inr outcome ->
  match outcome with
  | Return (OptionHandler _ _ path) => path = f_path fr
  | Return (LeafHandler _ _ _ _) => False
  | CliParseError path message => path = f_path fr /\ message <> EmptyString
  | TypeError => True
  end.
Proof.
  assert (Hpos : positionalStep fr arg = inr outcome ->
    match outcome with
    | Return (OptionHandler _ _ path) => path = f_path fr
    | Return (LeafHandler _ _ _ _) => False
    | CliParseError path message => path = f_path fr /\ message <> EmptyString
    | TypeError => True
    end).
  { unfold positionalStep. destruct (f_command fr) as [n h e o cs | n h e o ps hd].
    - destruct (List.find _ cs); [done|]. by intros [= <-].
    - unfold parameterStep. destruct (ps ≫= _) as [p|]; [|by intros [= <-]].
      destruct (is_null _); [by intros [= <-]|].
      destruct (p_repeatable p); [|done]. destruct (push _ _); [done|]. by intros [= <-]. }
  unfold iteration. destruct arg as [|c tail]; [done|].
  destruct (is_hyphen c); [|done].
  destruct (selectOption _ _) as [| |option]; [by intros [= <-] | by intros [= <-] |].
  unfold optionStep. destruct (o_boolean option).
  - destruct (o_handler option); [|done]. by intros [= <-].
  - destruct (f_args fr !! _); [|by intros [= <-]].
    destruct (is_null _); [by intros [= <-]|].
    destruct (o_handler option); [by intros [= <-]|].
    destruct (o_repeatable option); [|done]. destruct (push _ _); [done|]. by intros [= <-].
Qed.

(** What [finish] checked when it calls the handler. *)
Lemma finish_return fr call :
  finish fr = Return call ->
  exists handler,
    c_handler (f_command fr) = Some handler
    /\ call = LeafHandler handler (f_parameters fr) (f_options fr) (f_path fr)
    /\ checkParameters (c_parameters (f_command fr)) (f_parameters fr) = Pass
    /\ checkPath (f_options fr) (f_path fr) = Pass.
Proof.
  unfold finish. destruct (f_command fr) as [n h e o cs | n h e o ps hd]; [done|].
  simpl. destruct (checkParameters _ _); [|done|done].
  destruct (checkPath _ _); [|done|done]. intros [= <-]. by exists hd.
Qed.

Lemma finish_error fr path message :
  finish fr = CliParseError path message ->
  path = f_path fr
  /\ (message = EmptyString <-> c_handler (f_command fr) = None).
Proof.
  unfold finish. destruct (f_command fr) as [n h e o cs | n h e o ps hd]; simpl.
  { by intros [= <- <-]. }
  destruct (checkParameters _ _) eqn:E1.
  - destruct (checkPath _ _) eqn:E2; [done| |done].
    intros [= <- <-]. apply checkPath_fail in E2 as [name ->]. done.
  - intros [= <- <-]. apply checkParameters_fail in E1 as [name ->]. done.
  - done.
Qed.

(** *** The completion checks, read as properties *)


Lemma indexOfNull_Some values k :
  values !! k = Some VNull -> exists j, j <= k /\ indexOfNull values = Some j.
Proof.
  revert k. induction values as [|v vs IH]; intros k; [done|]. simpl.
  destruct (is_null v) eqn:E; [exists 0; split; [lia|done]|].
  destruct k as [|k]; simpl; [intros [= ->]; done|].
  intros (j & Hj & ->)%IH. exists (S j). split; [lia|done].
Qed.







(** The operator [in] of line 381 sees inherited members: a required
    option named as one of them passes the check without having been
    given, where any other name fails it. *)
Lemma inherited_member_counts_as_present :
  parserRun [] samples.build [] ∅
  = Some (Return (LeafHandler "build" [] ∅ [samples.build]))
  /\ parserRun [] samples.deploy [] ∅
     = Some (CliParseError [samples.deploy] (missingOption "token")).
Proof. split; reflexivity. Qed.




(** ** Termination, the end of input and the handlers *)

Lemma steps_depth args command path options fr :
  steps (enter args command path options) fr ->
  length (f_path fr) + height (f_command fr) <= length path + height command + 1.
Proof.
  intros Hsteps. remember (enter args command path options) as fr0 eqn:E.
  induction Hsteps as [|fr fr1 fr2 _ IH Hs]; subst; simpl.
  { rewrite length_app. simpl. lia. }
  specialize (IH eq_refl).
  apply step_cases in Hs as [(i & o & -> & _) | [(p & v & _ & _ & ->) | (next & Hc & _ & ->)]];
    simpl; try done.
  apply height_child in Hc. rewrite length_app. simpl. lia.
Qed.

Lemma help_defined path command :
  last path = Some command -> exists text, help path = Some text.
Proof. intros H. unfold help. rewrite H. by eexists. Qed.

Lemma step_final fr outcome :
  step fr = inr outcome ->
  (f_args fr !! f_i fr = None /\ outcome = finish fr)
  \/ (exists arg, f_args fr !! f_i fr = Some arg /\ iteration fr arg = inr outcome).
Proof.
  unfold step. destruct (f_args fr !! f_i fr) as [arg|].
  - intros H. right. by exists arg.
  - intros [= <-]. by left.
Qed.

(** C9. The resolver terminates on every token sequence and every command
    tree: the run from the initial frame yields an outcome with fuel
    [length args + 1], and with any larger amount the same one; every
    transition that continues either stays in the activation with [i]
    moved forward by at least one token, or enters a child on a strictly
    shorter token sequence; and the number of nested activations, the
    growth of the path, is at most the height of the command tree. *)
Theorem resolver_terminates (args : list string) (command : CliCommand)
    (path : list CliCommand) (options : gmap string JSValue) :
  (exists outcome,
      parserRun args command path options = Some outcome
      /\ forall fuel, length args < fuel ->
           run fuel (enter args command path options) = Some outcome)
  /\ (forall fr fr', step fr = inl fr' ->
        remaining fr' < remaining fr
        /\ ((f_args fr' = f_args fr /\ f_path fr' = f_path fr /\ f_i fr < f_i fr')
            \/ (exists next,
                  is_child (f_command fr) next /\ f_command fr' = next
                  /\ f_path fr' = f_path fr ++ [next]
                  /\ f_args fr' = drop (f_i fr + 1) (f_args fr)
                  /\ length (f_args fr') < length (f_args fr))))
  /\ (forall fr, steps (enter args command path options) fr ->
        length (f_path fr) - length path <= height command).
Proof.
  split; [|split].
  - destruct (run_total (S (length args)) (enter args command path options)) as [o Ho].
    { rewrite remaining_enter. lia. }
    exists o. split; [done|]. intros fuel Hfuel.
    apply (run_fuel_irrelevant (S (length args))); [done|lia].
  - intros fr fr' Hs. split; [by apply step_decreases|].
    apply step_cases in Hs
      as [(i & o & -> & Hi) | [(p & v & _ & Hi & ->) | (next & Hc & Hi & ->)]]; simpl.
    + left. repeat split. lia.
    + left. repeat split. lia.
    + right. exists next. repeat split; [done|]. rewrite length_drop. lia.
  - intros fr Hsteps. apply steps_depth in Hsteps.
    pose proof (height_positive (f_command fr)). lia.
Qed.

(** C5. When all tokens are consumed at a sub-command the resolver throws
    a [CliParseError] without message that carries the path from the root
    to that sub-command, and [CliMan.run] then prints the help text alone;
    for every parse error, [run] prints the help of the error's path,
    preceded by an [error:] line exactly when the message is not empty; and
    an error without message only comes from the end of input at a
    sub-command. *)
Theorem incomplete_renders_help_only (config : CliCommand) (args : list string) :
  (forall fr, steps (enter args config [] ∅) fr ->
     f_args fr !! f_i fr = None -> c_handler (f_command fr) = None ->
     descends config (f_path fr) (f_command fr)
     /\ parserRun args config [] ∅ = Some (CliParseError (f_path fr) EmptyString)
     /\ exists text, help (f_path fr) = Some text
          /\ CliMan_run config args = Some ([ConsoleInfo text], true))
  /\ (forall path message,
        parserRun args config [] ∅ = Some (CliParseError path message) ->
        exists text, help path = Some text
          /\ CliMan_run config args =
               Some (if decide (message = EmptyString) then [ConsoleInfo text]
                     else [ConsoleError ("error: " +:+ message +:+ nl); ConsoleInfo text],
                     true)
          /\ (message = EmptyString ->
              exists branch, last path = Some branch /\ c_handler branch = None)).
Proof.
  split.
  - intros fr Hsteps Hend Hbranch.
    pose proof (reachable_well_formed _ _ _ _ Hsteps) as (Hpath & _).
    assert (step fr = inr (CliParseError (f_path fr) EmptyString)) as Hstep.
    { unfold step, finish. rewrite Hend. by destruct (f_command fr). }
    pose proof (parserRun_outcome _ _ _ _ _ _ Hsteps Hstep) as Hrun.
    destruct (help_defined _ _ (descends_last _ _ _ Hpath)) as [text Htext].
    repeat split; [done|done|]. exists text. split; [done|].
    unfold CliMan_run, report. by rewrite Hrun, Htext.
  - intros path message Hrun.
    destruct (parserRun_final _ _ _ _ _ Hrun) as (fr & Hsteps & Hstep).
    pose proof (reachable_well_formed _ _ _ _ Hsteps) as (Hpath & _).
    assert (path = f_path fr
            /\ (message = EmptyString -> c_handler (f_command fr) = None)) as [-> Hmsg].
    { apply step_final in Hstep as [[_ Hfin] | (arg & _ & Hit)].
      - symmetry in Hfin. apply finish_error in Hfin as [-> Hiff]. split; [done|apply Hiff].
      - apply iteration_outcome in Hit as [-> Hne]. done. }
    destruct (help_defined _ _ (descends_last _ _ _ Hpath)) as [text Htext].
    exists text. split; [done|]. split.
    + unfold CliMan_run, report. rewrite Hrun, Htext.
      destruct message; by case_decide.
    + intros Hempty. exists (f_command fr). split; [by eapply descends_last|by apply Hmsg].
Qed.

Lemma incomplete_renders_help_only_witness :
  parserRun ["add"] forest.config [] ∅
  = Some (CliParseError [forest.config; forest.add] EmptyString)
  /\ exists text,
       help [forest.config; forest.add] = Some text
       /\ CliMan_run forest.config ["add"] = Some ([ConsoleInfo text], true).
Proof.
  pose proof (proj1 (incomplete_renders_help_only forest.config ["add"])
                (enter [] forest.add [forest.config] (primeOptions forest.config ∅))
                (steps_next (enter ["add"] forest.config [] ∅)
                            (enter ["add"] forest.config [] ∅)
                            (enter [] forest.add [forest.config]
                                   (primeOptions forest.config ∅))
                            (steps_here _) eq_refl)
                eq_refl eq_refl)
    as (_ & Hrun & Hhelp).
  split; [exact Hrun | exact Hhelp].
Defined.


(** A scalar slot at or after the cursor whose initial value is the
    missing marker makes the end of input fail, on the first such slot. *)
Lemma unfilled_slot_fails config args fr k parameter :
  steps (enter args config [] ∅) fr ->
  declared_parameters (f_command fr) !! k = Some parameter ->
  primeParameter parameter = VNull -> p_repeatable parameter = false ->
  f_currentParameterIndex fr <= k ->
  f_args fr !! f_i fr = None ->
  exists j q,
    j <= k /\ declared_parameters (f_command fr) !! j = Some q
    /\ parserRun args config [] ∅
       = Some (CliParseError (f_path fr) (missingParameter (p_name q))).
Proof.
  intros Hsteps Hk Hnull Hrep Hcursor Hend.
  pose proof (reachable_well_formed _ _ _ _ Hsteps) as (_ & _ & Hlen & Hslots).
  pose proof (Hslots k parameter Hk Hcursor Hrep) as Hslot. rewrite Hnull in Hslot.
  destruct (indexOfNull_Some _ _ Hslot) as (j & Hj & Hindex).
  pose proof (lookup_lt_Some _ _ _ Hk) as Hklt.
  destruct (lookup_lt_is_Some_2 (declared_parameters (f_command fr)) j) as [q Hq]; [lia|].
  exists j, q. split; [done|]. split; [done|].
  apply (parserRun_outcome _ _ _ _ fr); [done|].
  unfold step, finish. rewrite Hend. f_equal.
  unfold declared_parameters in Hq, Hk.
  destruct (f_command fr) as [n h e o cs | n h e o ps hd]; [done|].
  simpl in Hq, Hk. unfold checkParameters.
  destruct ps as [[|p0 ps]|]; try done.
  rewrite Hindex. simpl in Hq. by rewrite Hq.
Qed.


(** ** Descent priming *)






(** *** What becomes of a stored default *)









(** C10. A default that is the empty string counts as no default at
    priming: the option is initialised as the same option without default
    would be, whatever its parser (so the parser is not run on the empty
    default), the entry being an empty array or [false] by the other flags
    and absent otherwise; the parameter's slot likewise, and for a
    parameter that is neither optional nor repeatable it holds the missing
    marker, so that a run reaching the end of input with the slot unfilled
    fails with the missing-parameter error. *)
Theorem empty_default_is_no_default (options : gmap string JSValue) (option : CliOption)
    (parameter : CliParameter) :
  o_default option = Some EmptyString -> p_default parameter = Some EmptyString ->
  (forall parser, primeOption options option
                  = primeOption options (o_override option None parser))
  /\ primeOption options option
     = (if o_repeatable option then <[o_name option := VArr []]> options
        else if o_boolean option && negb (bool_decide (is_Some (o_handler option)))
             then <[o_name option := VBool false]> options
        else options)
  /\ (forall parser, primeParameter parameter
                     = primeParameter (p_override parameter None parser))
  /\ primeParameter parameter
     = (if p_repeatable parameter then VArr []
        else if p_optional parameter then VUndefined else VNull)
  /\ (p_repeatable parameter = false -> p_optional parameter = false ->
      forall config args fr k,
        steps (enter args config [] ∅) fr ->
        declared_parameters (f_command fr) !! k = Some parameter ->
        f_currentParameterIndex fr <= k ->
        f_args fr !! f_i fr = None ->
        exists j q,
          j <= k /\ declared_parameters (f_command fr) !! j = Some q
          /\ parserRun args config [] ∅
             = Some (CliParseError (f_path fr) (missingParameter (p_name q)))).
Proof.
  intros Ho Hp.
  assert (primeParameter parameter
          = (if p_repeatable parameter then VArr []
             else if p_optional parameter then VUndefined else VNull)) as Hprime.
  { unfold primeParameter. by rewrite Hp. }
  repeat split.
  - intros parser. unfold primeOption, o_override. cbn [o_default o_name o_repeatable
      o_boolean o_handler o_parser]. by rewrite Ho.
  - unfold primeOption. by rewrite Ho.
  - intros parser. unfold primeParameter, p_override. cbn [p_default p_repeatable
      p_optional p_parser]. by rewrite Hp.
  - done.
  - intros Hrep Hopt config args fr k Hsteps Hk Hcursor Hend.
    apply (unfilled_slot_fails config args fr k parameter); try done.
    by rewrite Hprime, Hrep, Hopt.
Qed.

Lemma empty_default_is_no_default_witness :
  primeOption ∅ samples.quiet_mode = ∅
  /\ primeParameter samples.target = VNull
  /\ exists j q,
       j <= 0 /\ declared_parameters samples.copy !! j = Some q
       /\ parserRun [] samples.copy [] ∅
          = Some (CliParseError [samples.copy] (missingParameter (p_name q))).
Proof.
  pose proof (empty_default_is_no_default ∅ samples.quiet_mode samples.target
                eq_refl eq_refl) as (_ & Hoption & _ & Hparameter & Hfail).
  split; [exact Hoption|]. split; [exact Hparameter|].
  exact (Hfail eq_refl eq_refl samples.copy [] (enter [] samples.copy [] ∅) 0
           (steps_here _) eq_refl (le_n 0) eq_refl).
Defined.

(** ** Name codec *)

(** Case analysis over the 256 characters. *)
Ltac by_character d :=
  destruct d as [[] [] [] [] [] [] [] []]; vm_compute;
  let H := fresh in intros H; first [discriminate H | repeat split].

Lemma lower_round_trip d :
  is_lower d = true ->
  is_line_terminator d = false /\ is_hyphen d = false /\ is_upper d = false
  /\ is_upper (toUpperCase d) = true /\ toLowerCase (toUpperCase d) = d.
Proof.
  by_character d.
Qed.

Lemma digit_not_upper d : is_digit d = true -> is_upper d = false /\ is_hyphen d = false.
Proof.
  by_character d.
Qed.

Lemma hyphen_not_upper d : is_hyphen d = true -> is_upper d = false.
Proof.
  by_character d.
Qed.

(** The round trip, for tokens of at most [n] characters. *)
Lemma round_trip_bounded n : forall x,
  String.length x <= n ->
  lowercase_token x = true -> no_hyphen_digit x = true ->
  fromCamel (toCamel x) = x.
Proof.
  unfold lowercase_token, no_hyphen_digit.
  induction n as [n IH] using lt_wf_ind. intros x Hlen Htoken Hdigit.
  apply andb_prop in Htoken as [Hchars Hpairs].
  destruct x as [|c rest]; [done|].
  cbn [all_chars] in Hchars. apply andb_prop in Hchars as [Hc Hrest].
  assert (forall y, String.length y < String.length (String c rest) ->
            all_chars token_char y = true ->
            no_adjacent is_hyphen is_hyphen y = true ->
            no_adjacent is_hyphen is_digit y = true ->
            fromCamel (toCamel y) = y) as Hsmaller.
  { intros y Hy H1 H2 H3. apply (IH (String.length y)); [lia|lia| |done].
    by rewrite H1, H2. }
  cbn [toCamel]. destruct (is_hyphen c) eqn:Hhyphen.
  - destruct rest as [|d rest'].
    + cbn [fromCamel]. by rewrite (hyphen_not_upper c Hhyphen).
    + cbn [no_adjacent] in Hpairs, Hdigit. rewrite Hhyphen in Hpairs, Hdigit.
      cbn [andb negb] in Hpairs, Hdigit.
      apply andb_prop in Hpairs as [Hd1 Hpairs]. apply andb_prop in Hdigit as [Hd2 Hdigit].
      cbn [all_chars] in Hrest. apply andb_prop in Hrest as [Hd Hrest'].
      assert (is_lower d = true) as Hlower.
      { unfold token_char in Hd. destruct (is_lower d); [done|].
        destruct (is_digit d); [done|]. by destruct (is_hyphen d). }
      destruct (lower_round_trip d Hlower) as (Hterm & _ & _ & Hup & Hback).
      rewrite Hterm. cbn [fromCamel]. rewrite Hup, Hback.
      assert (c = "-"%char) as ->.
      { unfold is_hyphen, code in Hhyphen. apply Nat.eqb_eq in Hhyphen.
        rewrite <- (ascii_nat_embedding c), Hhyphen. done. }
      f_equal. f_equal. apply Hsmaller; [simpl; lia|done| |].
      * destruct rest'; [done|]. cbn [no_adjacent] in Hpairs.
        by apply andb_prop in Hpairs as [_ ?].
      * destruct rest'; [done|]. cbn [no_adjacent] in Hdigit.
        by apply andb_prop in Hdigit as [_ ?].
  - assert (is_upper c = false) as Hup.
    { unfold token_char in Hc. rewrite Hhyphen, orb_false_r in Hc.
      apply orb_prop in Hc as [Hl|Hd]; [by apply lower_round_trip|by apply digit_not_upper]. }
    cbn [fromCamel]. rewrite Hup. f_equal.
    apply Hsmaller; [simpl; lia|done| |].
    + destruct rest; [done|]. cbn [no_adjacent] in Hpairs.
      by apply andb_prop in Hpairs as [_ ?].
    + destruct rest; [done|]. cbn [no_adjacent] in Hdigit.
      by apply andb_prop in Hdigit as [_ ?].
Qed.

Lemma all_chars_impl (p q : ascii -> bool) x :
  (forall c, p c = true -> q c = true) -> all_chars p x = true -> all_chars q x = true.
Proof.
  intros Hpq. induction x as [|c x IH]; [done|]. cbn [all_chars].
  intros [Hc Hx]%andb_prop. by rewrite (Hpq c Hc), IH.
Qed.

Lemma no_adjacent_none (p q r : ascii -> bool) x :
  (forall c, p c = true -> r c = false) -> all_chars p x = true ->
  no_adjacent q r x = true.
Proof.
  intros Hpr. induction x as [|c x IH]; [done|]. cbn [all_chars].
  intros [Hc Hx]%andb_prop. destruct x as [|d x]; [done|].
  change (negb (q c && r d) && no_adjacent q r (String d x) = true).
  rewrite IH by done. cbn [all_chars] in Hx.
  apply andb_prop in Hx as [Hd _]. by rewrite (Hpr d Hd), andb_false_r.
Qed.

Lemma lower_or_hyphen_not_digit c : is_lower c || is_hyphen c = true -> is_digit c = false.
Proof. by_character c. Qed.

(** The round trip for tokens of the letters a-z and single hyphens only. *)
Corollary codec_round_trip_letters (x : string) :
  all_chars (fun c => is_lower c || is_hyphen c) x = true ->
  no_adjacent is_hyphen is_hyphen x = true ->
  fromCamel (toCamel x) = x.
Proof.
  intros Hchars Hpairs. apply (round_trip_bounded (String.length x)); [lia| |].
  - unfold lowercase_token. rewrite Hpairs, andb_true_r.
    apply (all_chars_impl (fun c => is_lower c || is_hyphen c)); [|done].
    intros c. unfold token_char. destruct (is_lower c); [done|].
    simpl. intros ->. apply orb_true_r.
  - apply (no_adjacent_none (fun c => is_lower c || is_hyphen c)); [|done].
    apply lower_or_hyphen_not_digit.
Qed.

(** C6, as the code has it. For every token made of the ASCII lowercase
    letters a-z, the digits 0-9 and hyphens, without consecutive hyphens
    and in which no hyphen is directly followed by a digit,
    [fromCamel (toCamel x) = x]. *)
Theorem codec_round_trip (x : string) :
  lowercase_token x = true -> no_hyphen_digit x = true ->
  fromCamel (toCamel x) = x.
Proof. apply (round_trip_bounded (String.length x)). lia. Qed.

Lemma codec_round_trip_witness :
  fromCamel (toCamel "sector-id") = "sector-id".
Proof. exact (codec_round_trip "sector-id" eq_refl eq_refl). Defined.

(** C6 does not hold as worded: ["a-1"] is a hyphen-separated lowercase token
    without consecutive hyphens, and the round trip loses its hyphen. *)
Lemma codec_round_trip_digit :
  lowercase_token "a-1" = true
  /\ toCamel "a-1" = "a1"
  /\ fromCamel (toCamel "a-1") = "a1"
  /\ fromCamel (toCamel "a-1") <> "a-1".
Proof. repeat split; discriminate. Qed.

(** ** Help renderer *)

Lemma foldr_max_app (l1 l2 : list nat) :
  foldr Nat.max 0 (l1 ++ l2) = Nat.max (foldr Nat.max 0 l1) (foldr Nat.max 0 l2).
Proof. induction l1 as [|a l1 IH]; simpl; [done|]. rewrite IH. lia. Qed.

Lemma signature_width_rev path :
  foldr Nat.max 0 (widths (concat (map declared_options (rev path))))
  = signature_width path.
Proof.
  unfold signature_width, widths. induction path as [|c path IH]; [done|].
  simpl. rewrite map_app, concat_app, !map_app, !foldr_max_app, IH. simpl.
  rewrite app_nil_r. lia.
Qed.

Lemma helpOptions_option_fold options padding required pairs :
  fold_left helpOptions_option options (padding, required, pairs)
  = (Nat.max padding (foldr Nat.max 0 (widths options)),
     required ++ map entry (filter (fun o => o_required o = true) options),
     pairs ++ map entry (filter (fun o => o_required o = false) options)).
Proof.
  revert padding required pairs.
  induction options as [|o os IH]; intros padding required pairs.
  { simpl. by rewrite Nat.max_0_r, !app_nil_r. }
  cbn [fold_left helpOptions_option]. rewrite !filter_cons.
  destruct (o_required o) eqn:E.
  - rewrite IH. rewrite decide_True by done. rewrite decide_False by done.
    simpl. rewrite <- app_assoc. do 2 f_equal. lia.
  - rewrite IH. rewrite decide_False by done. rewrite decide_True by done.
    simpl. rewrite <- app_assoc. do 2 f_equal. lia.
Qed.

Lemma helpOptions_command_spec len padding required groups i command :
  helpOptions_command len (padding, required, groups) (i, command)
  = (Nat.max padding (foldr Nat.max 0 (widths (declared_options command))),
     required ++ map entry (filter (fun o => o_required o = true) (declared_options command)),
     groups ++ option_list (own_group len (i, command))).
Proof.
  unfold helpOptions_command, own_group, declared_options. simpl.
  destruct (c_options command) as [options|]; simpl.
  - rewrite helpOptions_option_fold. simpl.
    destruct (map entry _) as [|e es]; simpl; by rewrite ?app_nil_r.
  - by rewrite Nat.max_0_r, !app_nil_r.
Qed.

Lemma helpOptions_command_fold len order padding required groups :
  fold_left (helpOptions_command len) order (padding, required, groups)
  = (Nat.max padding
       (foldr Nat.max 0 (widths (concat (map declared_options (map snd order))))),
     required ++ concat (map (fun command =>
                               map entry (filter (fun o => o_required o = true)
                                                 (declared_options command)))
                             (map snd order)),
     groups ++ omap (own_group len) order).
Proof.
  revert padding required groups.
  induction order as [|[i command] order IH]; intros padding required groups.
  { simpl. by rewrite Nat.max_0_r, !app_nil_r. }
  cbn [fold_left]. rewrite helpOptions_command_spec, IH. simpl.
  unfold widths. rewrite map_app, foldr_max_app, <- !app_assoc.
  f_equal; [f_equal; lia|]. f_equal. by destruct (own_group len (i, command)).
Qed.

Lemma map_snd_combine {A B} (l1 : list A) (l2 : list B) :
  length l1 = length l2 -> map snd (combine l1 l2) = l2.
Proof.
  revert l2. induction l1 as [|a l1 IH]; intros [|b l2]; simpl; try done.
  intros [= H]. by rewrite IH.
Qed.

Lemma scan_order_commands path : map snd (scan_order path) = rev path.
Proof.
  unfold scan_order. rewrite map_rev, map_snd_combine; [done|]. by rewrite length_seq.
Qed.

(** C8, as the code has it. The options blocks are: one group "Required
    options" with the required options of every command of the path, the
    command at hand first and then outward to the root, each command's in
    declaration order, every occurrence kept; then per command, in the
    same order, a group of its other options, titled "Options" for the
    command at hand, "Global options" for the root when it is an ancestor,
    and by name for the ancestors between; groups without options are left
    out, "Required options" too. *)
Theorem help_groups_layout (path : list CliCommand) :
  helpGroups path = (Nat.min (signature_width path) 80, groups_spec path)
  /\ Forall (fun group : Group => snd group <> []) (groups_spec path)
  /\ helpOptions path
     = fold_left (fun output group =>
                    output +:+ renderGroup (Nat.min (signature_width path) 80) group)
                 (groups_spec path) EmptyString.
Proof.
  assert (helpGroups path = (Nat.min (signature_width path) 80, groups_spec path)) as H.
  { unfold helpGroups, groups_spec, required_entries.
    rewrite helpOptions_command_fold, scan_order_commands, signature_width_rev. simpl.
    f_equal. by destruct (concat _). }
  split; [done|]. split; [|unfold helpOptions; by rewrite H].
  unfold groups_spec. apply Forall_app. split.
  - destruct (required_entries path); repeat constructor. done.
  - apply Forall_forall. intros group (ic & _ & Hown)%list_elem_of_omap.
    unfold own_group in Hown. destruct (map entry _); [done|]. by injection Hown as <-.
Qed.

(** C8 does not hold as worded: a required option declared on two commands of
    the path is listed twice in "Required options". *)
Lemma required_options_repeat :
  helpGroups [samples.cloud; samples.deploy]
  = (15, [("Required options", [("--token <value>", EmptyString);
                                ("--token <value>", EmptyString)])])
  /\ ~ NoDup (map fst [("--token <value>", EmptyString); ("--token <value>", EmptyString)]).
Proof.
  split; [reflexivity|].
  intros H. apply NoDup_cons in H as [H _]. apply H. by left.
Qed.

(** ** Value parsers *)

(** *** Regular expressions *)

Lemma full_match_none x : full_match RNone x = false.
Proof. induction x as [|c x IH]; [done|]. apply IH. Qed.

Lemma full_match_alt r s x :
  full_match (RAlt r s) x = full_match r x || full_match s x.
Proof. revert r s. induction x as [|c x IH]; intros r s; [done|]. apply IH. Qed.

(** A word of [RCat r s] is a word of [r] followed by a word of [s]. *)
Lemma full_match_cat r s x1 x2 :
  full_match r x1 = true -> full_match s x2 = true ->
  full_match (RCat r s) (x1 +:+ x2) = true.
Proof.
  revert r. induction x1 as [|c x1 IH]; intros r Hr Hs; simpl in *.
  - destruct x2 as [|c x2]; simpl in *; [by rewrite Hr, Hs|].
    rewrite Hr, full_match_alt, Hs. apply orb_true_r.
  - destruct (nullable r).
    + rewrite full_match_alt, IH; done.
    + by apply IH.
Qed.

Lemma full_match_cat_inv r s x :
  full_match (RCat r s) x = true ->
  exists x1 x2, x = x1 +:+ x2 /\ full_match r x1 = true /\ full_match s x2 = true.
Proof.
  revert r. induction x as [|c x IH]; intros r; simpl.
  - intros [Hr Hs]%andb_prop. by exists EmptyString, EmptyString.
  - destruct (nullable r) eqn:Hnull.
    + rewrite full_match_alt. intros [H|H]%orb_prop.
      * apply IH in H as (x1 & x2 & -> & H1 & H2). by exists (String c x1), x2.
      * by exists EmptyString, (String c x).
    + intros (x1 & x2 & -> & H1 & H2)%IH. by exists (String c x1), x2.
Qed.

Lemma full_match_anything x : full_match RAnything x = true.
Proof.
  induction x as [|c x IH]; [done|].
  change (full_match (RCat REps RAnything) (EmptyString +:+ x) = true).
  by apply full_match_cat.
Qed.

Lemma append_empty_r x : x +:+ EmptyString = x.
Proof.
  induction x as [|c x IH]; [done|].
  change (String c (x +:+ EmptyString) = String c x). by rewrite IH.
Qed.

(** *** The [number] parser *)

(** The half of C2 that holds: every string of the shape is accepted, and
    the result is its [parseFloat]. *)
Lemma number_accepts_shape value :
  full_match number_shape value = true ->
  parsers.number value = VNum (parseFloat value).
Proof.
  intros (x1 & x2 & -> & Hsign & Hbody)%full_match_cat_inv.
  unfold parsers.number, number_re_test. rewrite full_match_alt.
  rewrite full_match_alt in Hbody. apply orb_prop in Hbody as [Hleft|Hright].
  - rewrite <- (append_empty_r (x1 +:+ x2)) at 1.
    rewrite (full_match_cat number_re_left RAnything); [done| |done].
    by apply full_match_cat.
  - replace (full_match (RCat RAnything number_re_right) (x1 +:+ x2)) with true.
    { by rewrite orb_true_r. }
    symmetry. change (x1 +:+ x2) with (EmptyString +:+ (x1 +:+ x2)).
    apply full_match_cat; [done|]. by apply full_match_cat.
Qed.

Lemma digit_word d :
  is_digit d = true -> full_match number_re_right (String d EmptyString) = true.
Proof.
  by_character d.
Qed.

(** How far the slip of the anchors reaches: whatever comes before a final
    digit, [number] does not reject. *)
Lemma number_accepts_digit_suffix prefix d :
  is_digit d = true ->
  parsers.number (prefix +:+ String d EmptyString)
  = VNum (parseFloat (prefix +:+ String d EmptyString)).
Proof.
  intros Hd. unfold parsers.number, number_re_test.
  rewrite full_match_alt, (full_match_cat RAnything number_re_right);
    [by rewrite orb_true_r | apply full_match_anything | by apply digit_word].
Qed.

(** C2, at the failing inputs: ["abc5"] and [".5abc"] are not of the shape
    the specification gives, and [number] returns a number for each, NaN
    for the first, instead of the reject value. *)
Theorem number_accepts_malformed :
  full_match number_shape "abc5" = false
  /\ parsers.number "abc5" = VNum NaN
  /\ full_match number_shape ".5abc" = false
  /\ parsers.number ".5abc" = VNum (Finite (1 # 2))
  /\ parsers.integer "abc5" = VNull.
Proof. split; [|split; [|split; [|split]]]; vm_compute; reflexivity. Qed.

(** ** The scenario of [examples/forest.ts] *)

(** C1. With the configuration of [examples/forest.ts], the tokens
    [add -s 4 tree -t oak] end in one call of the handler of [tree], whose
    options hold [sectorId = 4], [type = "oak"] and [count = 1]; the tokens
    [add tree] call no handler and fail with the error
    [missing required option "--sector-id"]. *)
Theorem forest_scenario :
  parserRun ["add"; "-s"; "4"; "tree"; "-t"; "oak"] forest.config [] ∅
  = Some (Return (LeafHandler "printArgs" [] forest.oak_options
                    [forest.config; forest.add; forest.tree]))
  /\ CliMan_run forest.config ["add"; "-s"; "4"; "tree"; "-t"; "oak"]
     = Some ([Invoke (LeafHandler "printArgs" [] forest.oak_options
                        [forest.config; forest.add; forest.tree])], true)
  /\ forest.oak_options !! "sectorId" = Some (VNum (num 4))
  /\ forest.oak_options !! "type" = Some (VStr "oak")
  /\ forest.oak_options !! "count" = Some (VNum (num 1))
  /\ parserRun ["add"; "tree"] forest.config [] ∅
     = Some (CliParseError [forest.config; forest.add; forest.tree]
               ("missing required option " +:+ quoted "--sector-id"))
  /\ exists text,
       help [forest.config; forest.add; forest.tree] = Some text
       /\ CliMan_run forest.config ["add"; "tree"]
          = Some ([ConsoleError ("error: missing required option "
                                 +:+ quoted "--sector-id" +:+ nl);
                   ConsoleInfo text], true)
       /\ invocations ([ConsoleError ("error: missing required option "
                                      +:+ quoted "--sector-id" +:+ nl);
                        ConsoleInfo text], true) = [].
Proof.
  split; [reflexivity|]. split; [reflexivity|].
  split; [reflexivity|]. split; [reflexivity|].
  split; [reflexivity|]. split; [reflexivity|].
  eexists. split; [vm_compute; reflexivity|]. split; reflexivity.
Qed.

(** * Further properties *)

(** ** Name codec, from internal to external and back *)

Lemma upper_round_trip c :
  is_upper c = true ->
  is_line_terminator (toLowerCase c) = false /\ toUpperCase (toLowerCase c) = c
  /\ is_upper (toLowerCase c) = false.
Proof. by_character c. Qed.

Lemma toCamel_fromCamel_id name :
  no_hyphen name = true -> toCamel (fromCamel name) = name.
Proof.
  unfold no_hyphen. induction name as [|c rest IH]; [done|].
  cbn [all_chars fromCamel]. intros [Hc Hrest]%andb_prop.
  apply negb_true_iff in Hc. destruct (is_upper c) eqn:Hup.
  - destruct (upper_round_trip c Hup) as (Hterm & Hback & _).
    change (toCamel (String "-" (String (toLowerCase c) (fromCamel rest))))
      with (if is_line_terminator (toLowerCase c)
            then String "-"%char (toCamel (String (toLowerCase c) (fromCamel rest)))
            else String (toUpperCase (toLowerCase c)) (toCamel (fromCamel rest))).
    by rewrite Hterm, Hback, IH.
  - cbn [toCamel]. by rewrite Hc, IH.
Qed.

(** X1. The external form of a name never holds an upper-case letter, and for
    a name without hyphen [toCamel] leads back from it to the name: what
    the help prints for a camel-case name is lowercase and resolves to
    that name. *)
Theorem external_name_round_trip (name : string) :
  no_hyphen name = true ->
  all_chars (fun c => negb (is_upper c)) (fromCamel name) = true
  /\ toCamel (fromCamel name) = name.
Proof.
  intros Hname. split; [|by apply toCamel_fromCamel_id].
  clear Hname. induction name as [|c rest IH]; [done|].
  cbn [fromCamel]. destruct (is_upper c) eqn:Hup.
  - cbn [all_chars]. rewrite IH.
    destruct (upper_round_trip c Hup) as (_ & _ & ->). done.
  - cbn [all_chars]. by rewrite Hup, IH.
Qed.

Lemma external_name_round_trip_witness :
  all_chars (fun c => negb (is_upper c)) (fromCamel "sectorId") = true
  /\ toCamel (fromCamel "sectorId") = "sectorId".
Proof. exact (external_name_round_trip "sectorId" eq_refl). Defined.

(** ** Option lookup along the path *)

Lemma find_none_iff {A} (p : A -> bool) (l : list A) :
  List.find p l = None <-> forall x, x ∈ l -> p x = false.
Proof.
  split.
  - intros H x Hx. apply list_elem_of_In in Hx. by apply (find_none p l).
  - intros H. induction l as [|a l IH]; [done|]. simpl.
    rewrite (H a) by apply list_elem_of_here. apply IH.
    intros x Hx. apply H. by apply list_elem_of_further.
Qed.

Lemma findOption_snoc path command p :
  findOption (path ++ [command]) p =
    match List.find p (declared_options command) with
    | Some option => Some option
    | None => findOption path p
    end.
Proof.
  unfold findOption, declared_options. rewrite rev_unit. simpl.
  by destruct (c_options command).
Qed.

(** X2. The option a token resolves to is the first match, in declaration
    order, of the nearest command of the path that has one ([i] counts
    commands from the root, so nearer means a larger index), and the lookup
    fails only when no command of the path declares a match. *)
Theorem findOption_nearest (path : list CliCommand) (p : CliOption -> bool) :
  match findOption path p with
  | Some option =>
      p option = true
      /\ exists i command,
           path !! i = Some command /\ option ∈ declared_options command
           /\ List.find p (declared_options command) = Some option
           /\ forall j nearer other,
                i < j -> path !! j = Some nearer ->
                other ∈ declared_options nearer -> p other = false
  | None =>
      forall command other,
        command ∈ path -> other ∈ declared_options command -> p other = false
  end.
Proof.
  induction path as [|c path IH] using rev_ind.
  { intros command other Hc. by apply elem_of_nil in Hc. }
  rewrite findOption_snoc.
  destruct (List.find p (declared_options c)) as [o|] eqn:Hfind.
  - pose proof (find_elem_of _ _ _ Hfind) as [Hin Hp]. split; [done|].
    exists (length path), c. rewrite list_lookup_middle by done.
    repeat split; try done. intros j nearer other Hj Hlookup.
    apply lookup_lt_Some in Hlookup. rewrite length_app in Hlookup. simpl in Hlookup. lia.
  - pose proof (proj1 (find_none_iff _ _) Hfind) as Hnone.
    destruct (findOption path p) as [o|].
    + destruct IH as (Hp & i & command & Hi & Hin & Hfirst & Hnear). split; [done|].
      pose proof (lookup_lt_Some _ _ _ Hi) as Hlt.
      exists i, command. rewrite lookup_app_l by done. repeat split; try done.
      intros j nearer other Hj Hlookup.
      destruct (decide (j < length path)) as [Hjlt|Hjge].
      * rewrite lookup_app_l in Hlookup by done. by apply (Hnear j).
      * pose proof (lookup_lt_Some _ _ _ Hlookup) as Hbound.
        rewrite length_app in Hbound. simpl in Hbound.
        assert (j = length path) as -> by lia.
        rewrite list_lookup_middle in Hlookup by done. injection Hlookup as <-. apply Hnone.
    + intros command other [Hin|Hin]%elem_of_app; [by apply IH|].
      apply list_elem_of_singleton in Hin as ->. apply Hnone.
Qed.

Lemma findOption_complete path p command option :
  command ∈ path -> option ∈ declared_options command -> p option = true ->
  exists found, findOption path p = Some found /\ p found = true.
Proof.
  induction path as [|c path IH] using rev_ind; [by intros ?%elem_of_nil|].
  rewrite findOption_snoc. intros Hcommand Hoption Hp.
  destruct (List.find p (declared_options c)) as [o|] eqn:Hfind.
  - exists o. split; [done|]. by apply find_elem_of in Hfind as [_ ?].
  - apply elem_of_app in Hcommand as [Hin|Hin]; [by apply IH|].
    apply list_elem_of_singleton in Hin as ->.
    pose proof (proj1 (find_none_iff _ _) Hfind option Hoption). congruence.
Qed.

(** X3. The long form [--external-name] that the help prints for an option is
    accepted by the resolver wherever the option is in scope, and resolves
    to an option of that name. *)
Theorem printed_long_option_resolves (path : list CliCommand) (command : CliCommand)
    (option : CliOption) :
  command ∈ path -> option ∈ declared_options command ->
  no_hyphen (o_name option) = true ->
  exists found,
    selectOption path ("-" +:+ fromCamel (o_name option)) = Selected found
    /\ o_name found = o_name option.
Proof.
  intros Hcommand Hoption Hname.
  change ("-" +:+ fromCamel (o_name option))
    with (String "-"%char (fromCamel (o_name option))).
  cbn [selectOption]. change (is_hyphen "-") with true. cbn iota.
  rewrite toCamel_fromCamel_id by done.
  destruct (findOption_complete path (fun opt => String.eqb (o_name opt) (o_name option))
              command option Hcommand Hoption (String.eqb_refl _)) as (found & -> & Hp).
  exists found. split; [done|]. by apply String.eqb_eq in Hp.
Qed.


Lemma printed_long_option_resolves_witness :
  exists found,
    selectOption [forest.config; forest.add; forest.tree] "-sector-id" = Selected found
    /\ o_name found = "sectorId".
Proof.
  apply (printed_long_option_resolves [forest.config; forest.add; forest.tree]
           forest.add forest.sectorId).
  - apply list_elem_of_further, list_elem_of_here.
  - apply list_elem_of_further, list_elem_of_here.
  - reflexivity.
Defined.

(** ** Value parsers *)

Lemma full_match_eps x : full_match REps x = true -> x = EmptyString.
Proof. destruct x as [|c x]; [done|]. simpl. by rewrite full_match_none. Qed.

Lemma full_match_char p x :
  full_match (RChar p) x = true -> exists c, x = String c EmptyString /\ p c = true.
Proof.
  destruct x as [|c x]; [done|]. simpl. destruct (p c) eqn:Hp.
  - intros ->%full_match_eps. by exists c.
  - by rewrite full_match_none.
Qed.

Lemma full_match_star_char p x :
  full_match (RStar (RChar p)) x = true -> all_chars p x = true.
Proof.
  induction x as [|c x IH]; [done|].
  change (full_match (RStar (RChar p)) (String c x))
    with (full_match (RCat (if p c then REps else RNone) (RStar (RChar p))) x).
  intros (x1 & x2 & -> & H1 & H2)%full_match_cat_inv. cbn [all_chars].
  destruct (p c); [|by rewrite full_match_none in H1].
  apply full_match_eps in H1 as ->. by apply IH.
Qed.

Lemma read_digits_all acc s :
  all_chars is_digit s = true ->
  exists n, read_digits acc s = ((fst acc + String.length s, n), EmptyString).
Proof.
  revert acc. induction s as [|c s IH]; intros acc.
  { intros _. exists (snd acc). simpl. rewrite Nat.add_0_r. by destruct acc. }
  cbn [all_chars read_digits]. intros [Hc Hs]%andb_prop. rewrite Hc.
  destruct (IH (S (fst acc), (10 * snd acc + Z.of_nat (code c - 48))%Z) Hs) as [n Hn].
  exists n. rewrite Hn. simpl. do 2 f_equal. lia.
Qed.

Lemma digit_facts d :
  is_digit d = true ->
  is_space d = false /\ (code d =? 45) = false /\ (code d =? 43) = false.
Proof. by_character d. Qed.

Lemma sign_facts c :
  is_sign c = true ->
  is_space c = false
  /\ ((code c =? 45) = true \/ ((code c =? 45) = false /\ (code c =? 43) = true)).
Proof.
  destruct c as [[] [] [] [] [] [] [] []]; vm_compute; intros H;
    first [discriminate H | split; [reflexivity | first [by left | by right]]].
Qed.

(** A string of the shape [sign? digit+] reads as an integer. *)
Lemma parseInt_shape value :
  full_match integer_re value = true -> exists z, parseInt value = num z.
Proof.
  intros (x1 & x2 & -> & Hsign & Hdigits)%full_match_cat_inv.
  apply full_match_cat_inv in Hdigits as (d1 & ds & -> & Hd & Hds).
  apply full_match_char in Hd as (d & -> & Hd).
  apply full_match_star_char in Hds.
  assert (all_chars is_digit (String d ds) = true) as Hall.
  { cbn [all_chars]. by rewrite Hd, Hds. }
  destruct (digit_facts d Hd) as (Hspace & H45 & H43).
  unfold ROpt in Hsign. rewrite full_match_alt in Hsign.
  apply orb_prop in Hsign as [->%full_match_eps | (c & -> & Hc)%full_match_char].
  - change (EmptyString +:+ String d EmptyString +:+ ds) with (String d ds).
    unfold parseInt. cbn [skip_spaces]. rewrite Hspace. cbn [read_sign].
    rewrite H45, H43.
    destruct (read_digits_all (0, 0%Z) (String d ds) Hall) as [n ->]. by eexists.
  - change (String c EmptyString +:+ String d EmptyString +:+ ds)
      with (String c (String d ds)).
    destruct (sign_facts c Hc) as (Hcspace & Hcases).
    unfold parseInt. cbn [skip_spaces]. rewrite Hcspace. cbn [read_sign].
    destruct (read_digits_all (0, 0%Z) (String d ds) Hall) as [n Hn].
    destruct Hcases as [-> | [-> ->]]; rewrite Hn; by eexists.
Qed.

(** X4. [integer] answers with the reject value or with a number that is
    not NaN: it accepts exactly the strings of the shape [sign? digit+],
    and [parseInt] reads each of them as a number. *)
Theorem integer_rejects_or_reads (value : string) :
  (full_match integer_re value = false /\ parsers.integer value = VNull)
  \/ (full_match integer_re value = true
      /\ exists n, parsers.integer value = VNum n /\ n <> NaN).
Proof.
  unfold parsers.integer. destruct (full_match integer_re value) eqn:Hshape.
  - right. split; [done|]. destruct (parseInt_shape value Hshape) as [z ->].
    by exists (num z).
  - by left.
Qed.

Lemma read_digits_count acc s : fst acc <= fst (fst (read_digits acc s)).
Proof.
  revert acc. induction s as [|c s IH]; intros acc; cbn [read_digits]; [done|].
  destruct (is_digit c); [|done]. etrans; [|apply IH]. cbn. lia.
Qed.

Lemma read_digits_leading acc d s :
  is_digit d = true -> 0 < fst (fst (read_digits acc (String d s))).
Proof.
  intros Hd. cbn [read_digits]. rewrite Hd.
  pose proof (read_digits_count (S (fst acc), (10 * snd acc + Z.of_nat (code d - 48))%Z) s)
    as H.
  cbn [fst] in H. lia.
Qed.

Lemma not_infinity c s :
  is_digit c || is_dot c = true -> starts_with "Infinity" (String c s) = false.
Proof.
  destruct c as [[] [] [] [] [] [] [] []]; intros H;
    first [by (vm_compute in H; discriminate H) | reflexivity].
Qed.

Lemma dot_facts c :
  is_dot c = true ->
  is_digit c = false /\ is_space c = false
  /\ (code c =? 45) = false /\ (code c =? 43) = false.
Proof. by_character c. Qed.

(** [parseFloat] without the leading spaces and the sign. *)
Lemma parseFloat_unsigned_digit negative d s :
  is_digit d = true ->
  exists q,
    (if starts_with "Infinity" (String d s) then Infinity negative
     else
       let '((icount, ipart), s1) := read_digits (0, 0%Z) (String d s) in
       let '((fcount, fpart), s2) :=
         match s1 with
         | String c rest =>
             if is_dot c then read_digits (0, 0%Z) rest else ((0, 0%Z), s1)
         | EmptyString => ((0, 0%Z), s1)
         end in
       if (icount =? 0) && (fcount =? 0) then NaN
       else
         let mantissa := (ipart * 10 ^ Z.of_nat fcount + fpart)%Z in
         let exponent := (read_exponent s2 - Z.of_nat fcount)%Z in
         let magnitude := (inject_Z mantissa * Qpower (inject_Z 10) exponent)%Q in
         Finite (Qred (if negative then - magnitude else magnitude)%Q))
    = Finite q.
Proof.
  intros Hd. rewrite not_infinity by (by rewrite Hd).
  pose proof (read_digits_leading (0, 0%Z) d s Hd) as Hcount.
  destruct (read_digits (0, 0%Z) (String d s)) as [[icount ipart] s1].
  cbn [fst] in Hcount.
  destruct (match s1 with
            | String c rest =>
                if is_dot c then read_digits (0, 0%Z) rest else ((0, 0%Z), s1)
            | EmptyString => ((0, 0%Z), s1)
            end) as [[fcount fpart] s2].
  destruct icount as [|icount]; [lia|]. cbn [Nat.eqb andb]. by eexists.
Qed.

Lemma parseFloat_unsigned_dot negative c d s :
  is_dot c = true -> is_digit d = true ->
  exists q,
    (if starts_with "Infinity" (String c (String d s)) then Infinity negative
     else
       let '((icount, ipart), s1) := read_digits (0, 0%Z) (String c (String d s)) in
       let '((fcount, fpart), s2) :=
         match s1 with
         | String c rest =>
             if is_dot c then read_digits (0, 0%Z) rest else ((0, 0%Z), s1)
         | EmptyString => ((0, 0%Z), s1)
         end in
       if (icount =? 0) && (fcount =? 0) then NaN
       else
         let mantissa := (ipart * 10 ^ Z.of_nat fcount + fpart)%Z in
         let exponent := (read_exponent s2 - Z.of_nat fcount)%Z in
         let magnitude := (inject_Z mantissa * Qpower (inject_Z 10) exponent)%Q in
         Finite (Qred (if negative then - magnitude else magnitude)%Q))
    = Finite q.
Proof.
  intros Hc Hd. destruct (dot_facts c Hc) as (Hnodigit & _).
  rewrite not_infinity by (by rewrite Hc, orb_true_r).
  cbn [read_digits]. rewrite Hnodigit, Hc.
  pose proof (read_digits_leading (0, 0%Z) d s Hd) as Hcount.
  destruct (read_digits (0, 0%Z) (String d s)) as [[fcount fpart] s2].
  cbn [fst] in Hcount. destruct fcount as [|fcount]; [lia|].
  cbn [Nat.eqb andb]. by eexists.
Qed.

(** X6. Every string of the documented shape, an optional sign and then a
    leading-dot decimal or an integer with an optional fractional part, is
    accepted by [number], and what it returns for it is what [parseFloat]
    reads, which is a number and not NaN. *)
Theorem number_reads_documented_forms (value : string) :
  full_match number_shape value = true ->
  parsers.number value = VNum (parseFloat value) /\ parseFloat value <> NaN.
Proof.
  intros Hshape. split; [by apply number_accepts_shape|].
  assert (exists q, parseFloat value = Finite q) as [q Hq]; [|by rewrite Hq].
  apply full_match_cat_inv in Hshape as (x1 & x2 & -> & Hsign & Hbody).
  assert (exists c s, x2 = String c s
            /\ (is_digit c = true
                \/ (is_dot c = true /\ exists d s', s = String d s' /\ is_digit d = true)))
    as (c & s & -> & Hfirst).
  { rewrite full_match_alt in Hbody. apply orb_prop in Hbody as [Hleft|Hright].
    - apply full_match_cat_inv in Hleft as (y1 & y2 & -> & Hdot & Hdigits).
      apply full_match_char in Hdot as (c & -> & Hc).
      apply full_match_cat_inv in Hdigits as (z1 & z2 & -> & Hd & _).
      apply full_match_char in Hd as (d & -> & Hd).
      exists c, (String d z2). split; [done|]. right. split; [done|]. by exists d, z2.
    - apply full_match_cat_inv in Hright as (y1 & y2 & -> & Hdigits & _).
      apply full_match_cat_inv in Hdigits as (z1 & z2 & -> & Hd & _).
      apply full_match_char in Hd as (d & -> & Hd).
      exists d, (z2 +:+ y2). split; [done|]. by left. }
  assert (forall negative, exists q,
            (if starts_with "Infinity" (String c s) then Infinity negative
             else
               let '((icount, ipart), s1) := read_digits (0, 0%Z) (String c s) in
               let '((fcount, fpart), s2) :=
                 match s1 with
                 | String c rest =>
                     if is_dot c then read_digits (0, 0%Z) rest else ((0, 0%Z), s1)
                 | EmptyString => ((0, 0%Z), s1)
                 end in
               if (icount =? 0) && (fcount =? 0) then NaN
               else
                 let mantissa := (ipart * 10 ^ Z.of_nat fcount + fpart)%Z in
                 let exponent := (read_exponent s2 - Z.of_nat fcount)%Z in
                 let magnitude :=
                   (inject_Z mantissa * Qpower (inject_Z 10) exponent)%Q in
                 Finite (Qred (if negative then - magnitude else magnitude)%Q))
            = Finite q) as Hbody_reads.
  { intros negative. destruct Hfirst as [Hd | (Hc & d & s' & -> & Hd)].
    - by apply parseFloat_unsigned_digit.
    - by apply parseFloat_unsigned_dot. }
  assert (is_space c = false /\ (code c =? 45) = false /\ (code c =? 43) = false)
    as (Hspace & H45 & H43).
  { destruct Hfirst as [Hd | (Hc & _)]; [by apply digit_facts|].
    by destruct (dot_facts c Hc) as (_ & ? & ? & ?). }
  unfold ROpt in Hsign. rewrite full_match_alt in Hsign.
  apply orb_prop in Hsign as [->%full_match_eps | (sign & -> & Hsigned)%full_match_char].
  - change (EmptyString +:+ String c s) with (String c s).
    unfold parseFloat. cbn [skip_spaces]. rewrite Hspace. cbn [read_sign].
    rewrite H45, H43. apply Hbody_reads.
  - change (String sign EmptyString +:+ String c s) with (String sign (String c s)).
    destruct (sign_facts sign Hsigned) as (Hsign_space & Hcases).
    unfold parseFloat. cbn [skip_spaces]. rewrite Hsign_space. cbn [read_sign].
    destruct Hcases as [-> | [-> ->]]; apply Hbody_reads.
Qed.

Lemma number_reads_documented_forms_witness :
  parsers.number "-12.50" = VNum (parseFloat "-12.50") /\ parseFloat "-12.50" <> NaN.
Proof. exact (number_reads_documented_forms "-12.50" eq_refl). Defined.

(** ** The paths the resolver hands out *)

Lemma descends_head root path current :
  descends root path current -> head path = Some root.
Proof.
  induction 1 as [| path current next _ IH _]; [done|]. by destruct path.
Qed.

(** X7. Every path the resolver gives to a handler or puts in an error starts
    at the root, follows the tree down to the command at hand, and is one
    the help can be rendered for: a handler such as [CliMan.help] never
    meets an empty or broken path. *)
Theorem outcome_path_rooted (config : CliCommand) (args : list string) :
  exists outcome,
    parserRun args config [] ∅ = Some outcome
    /\ match outcome with
       | Return (OptionHandler _ _ path) | Return (LeafHandler _ _ _ path)
       | CliParseError path _ =>
           head path = Some config
           /\ (exists current, descends config path current)
           /\ exists text, help path = Some text
       | TypeError => True
       end.
Proof.
  destruct (run_total (S (length args)) (enter args config [] ∅)) as [outcome Hrun].
  { rewrite remaining_enter. lia. }
  change (parserRun args config [] ∅ = Some outcome) in Hrun.
  exists outcome. split; [done|].
  destruct (parserRun_final _ _ _ _ _ Hrun) as (fr & Hsteps & Hstep).
  pose proof (reachable_well_formed _ _ _ _ Hsteps) as (Hpath & _).
  assert (head (f_path fr) = Some config
          /\ (exists current, descends config (f_path fr) current)
          /\ exists text, help (f_path fr) = Some text) as Hgood.
  { split; [by eapply descends_head|]. split; [by eexists|].
    eapply help_defined. by eapply descends_last. }
  apply step_final in Hstep as [[_ ->] | (arg & _ & Hit)].
  - destruct (finish fr) as [call|path message|] eqn:Hfin; [| |done].
    + apply finish_return in Hfin as (h & _ & -> & _). done.
    + apply finish_error in Hfin as [-> _]. done.
  - apply iteration_outcome in Hit.
    destruct outcome as [[h v path|h vs os path]|path message|]; try done.
    + by subst.
    + by destruct Hit as [-> _].
Qed.

(** ** Entries that priming guarantees *)









(** ** Tokens that start with a dash *)

(** X9. A token that starts with a dash is never taken as a command name or a
    positional value: when the run goes on after it, the command, the
    path, the positional values and the cursor are what they were (so a
    value such as [-5] cannot be given positionally). *)
Theorem dash_token_never_positional (fr fr' : Frame) (arg : string) :
  f_args fr !! f_i fr = Some arg -> starts_with_dash arg = true ->
  step fr = inl fr' ->
  f_command fr' = f_command fr /\ f_path fr' = f_path fr
  /\ f_parameters fr' = f_parameters fr
  /\ f_currentParameterIndex fr' = f_currentParameterIndex fr.
Proof.
  intros Harg Hdash. unfold step. rewrite Harg. unfold iteration.
  destruct arg as [|c tail]; [done|]. cbn [starts_with_dash] in Hdash. rewrite Hdash.
  destruct (selectOption _ _) as [| |option]; [done|done|].
  unfold optionStep. destruct (o_boolean option).
  - destruct (o_handler option); [done|]. by intros [= <-].
  - destruct (f_args fr !! (f_i fr + 1)); [|done]. destruct (is_null _); [done|].
    destruct (o_handler option); [done|]. destruct (o_repeatable option).
    + destruct (push _ _); [|done]. by intros [= <-].
    + by intros [= <-].
Qed.

Lemma dash_token_never_positional_witness :
  f_parameters (with_options (enter ["-a"; "fox"] forest.move [] ∅) 1
                  (<["all" := VBool true]> (primeOptions forest.move ∅)))
  = [VNull; VNum (num 1); VUndefined].
Proof.
  exact (proj1 (proj2 (proj2
           (dash_token_never_positional (enter ["-a"; "fox"] forest.move [] ∅)
              (with_options (enter ["-a"; "fox"] forest.move [] ∅) 1
                 (<["all" := VBool true]> (primeOptions forest.move ∅)))
              "-a" eq_refl eq_refl eq_refl)))).
Defined.

(** ** Short-circuit options *)

Lemma extend_enter suffix args command path options :
  extend suffix (enter args command path options)
  = enter (args ++ suffix) command path options.
Proof. done. Qed.

(** A round of the loop that goes on, or that calls an option's handler,
    does the same when more tokens follow the arguments. *)
Lemma iteration_extend suffix fr arg :
  f_args fr !! f_i fr = Some arg ->
  match iteration fr arg with
  | inl fr' => iteration (extend suffix fr) arg = inl (extend suffix fr')
  | inr (Return call) => iteration (extend suffix fr) arg = inr (Return call)
  | inr _ => True
  end.
Proof.
  intros Harg. pose proof (lookup_lt_Some _ _ _ Harg) as Hlt.
  assert (Hpos : match positionalStep fr arg with
                 | inl fr' => positionalStep (extend suffix fr) arg = inl (extend suffix fr')
                 | inr (Return call) =>
                     positionalStep (extend suffix fr) arg = inr (Return call)
                 | inr _ => True
                 end).
  { unfold positionalStep. cbn [extend f_command f_path f_options f_args f_i].
    destruct (f_command fr) as [n h e o cs | n h e o ps hd].
    - destruct (List.find _ cs) as [next|]; [|done].
      rewrite drop_app_le by lia. done.
    - unfold parameterStep.
      cbn [extend f_command f_path f_options f_args f_i f_parameters
           f_currentParameterIndex].
      destruct (ps ≫= _) as [p|]; [|done].
      destruct (is_null _); [done|]. destruct (p_repeatable p); [|done].
      by destruct (push _ _). }
  unfold iteration. destruct arg as [|c tail]; [done|].
  destruct (is_hyphen c); [|done]. cbn [extend f_path].
  destruct (selectOption _ _) as [| |option]; [done|done|].
  unfold optionStep. cbn [extend f_command f_path f_options f_args f_i].
  destruct (o_boolean option).
  - by destruct (o_handler option).
  - destruct (f_args fr !! (f_i fr + 1)) as [raw|] eqn:Hraw; [|done].
    rewrite (lookup_app_l_Some _ _ _ _ Hraw).
    destruct (is_null _); [done|]. destruct (o_handler option); [done|].
    destruct (o_repeatable option); [|done]. by destruct (push _ _).
Qed.

Lemma run_extend suffix fuel fr handler value path :
  run fuel fr = Some (Return (OptionHandler handler value path)) ->
  run fuel (extend suffix fr) = Some (Return (OptionHandler handler value path)).
Proof.
  revert fr. induction fuel as [|fuel IH]; intros fr; [done|].
  cbn [run]. unfold step. cbn [extend f_args f_i].
  destruct (f_args fr !! f_i fr) as [arg|] eqn:Harg.
  - rewrite (lookup_app_l_Some _ _ _ _ Harg).
    pose proof (iteration_extend suffix fr arg Harg) as Hsim.
    destruct (iteration fr arg) as [fr'|[call| |]]; try done.
    + rewrite Hsim. apply IH.
    + by rewrite Hsim.
  - intros [= Hfin]. by apply finish_return in Hfin as (h & _ & ? & _).
Qed.

(** X10. Once an option with a handler is met, what follows it on the command
    line has no effect: the same handler is called with the same value and
    path whatever tokens are appended, unknown options and commands
    included. *)
Theorem short_circuit_ignores_rest (config : CliCommand) (args suffix : list string)
    (handler : Handler) (value : option JSValue) (path : list CliCommand) :
  parserRun args config [] ∅ = Some (Return (OptionHandler handler value path)) ->
  parserRun (args ++ suffix) config [] ∅
  = Some (Return (OptionHandler handler value path)).
Proof.
  unfold parserRun. intros Hrun. rewrite <- extend_enter.
  apply (run_fuel_irrelevant (S (length args))); [by apply run_extend|].
  rewrite length_app. lia.
Qed.

Lemma short_circuit_ignores_rest_witness :
  parserRun (["add"; "-h"] ++ ["--bogus"; "nowhere"]) forest.config [] ∅
  = Some (Return (OptionHandler "CliMan.help" None [forest.config; forest.add])).
Proof.
  exact (short_circuit_ignores_rest forest.config ["add"; "-h"] ["--bogus"; "nowhere"]
           "CliMan.help" None [forest.config; forest.add] eq_refl).
Defined.

(** ** A repeatable parameter *)

Lemma lookup_drop_head {A} (l : list A) i x rest :
  drop i l = x :: rest -> l !! i = Some x /\ drop (S i) l = rest.
Proof.
  intros H. assert (l !! i = Some x) as Hx.
  { rewrite <- (Nat.add_0_r i), <- lookup_drop, H. done. }
  split; [done|]. rewrite (drop_S _ _ _ Hx) in H. by injection H.
Qed.

Lemma lookup_drop_nil {A} (l : list A) i : drop i l = [] -> l !! i = None.
Proof. intros H. rewrite <- (Nat.add_0_r i), <- lookup_drop, H. done. Qed.

(** The run of a command whose only parameter is repeatable, over tokens
    none of which starts with a dash: each one is appended to the slot. *)
Lemma absorb_run name help ehelp options handler p rest : forall fr collected,
  f_command fr = ActionCommand name help ehelp options (Some [p]) handler ->
  p_repeatable p = true -> p_parser p = None ->
  f_parameters fr = [VArr collected] -> f_currentParameterIndex fr = 0 ->
  drop (f_i fr) (f_args fr) = rest ->
  Forall (fun arg => starts_with_dash arg = false) rest ->
  run (S (length rest)) fr
  = Some (finish (with_parameters fr 0 [VArr (collected ++ map VStr rest)] 0)).
Proof.
  induction rest as [|arg rest IH]; intros fr collected Hcmd Hrep Hparser Hvalues Hcursor
    Hdrop Hnodash.
  - cbn [run]. unfold step. rewrite (lookup_drop_nil _ _ Hdrop). f_equal.
    unfold finish. cbn [with_parameters f_command f_parameters f_options f_path map].
    by rewrite app_nil_r, Hvalues.
  - apply lookup_drop_head in Hdrop as [Harg Hrest].
    apply Forall_cons in Hnodash as [Harg_nodash Hnodash].
    assert (step fr
            = inl (with_parameters fr (f_i fr + 1)
                     [VArr (collected ++ [VStr arg])] 0)) as Hstep.
    { unfold step. rewrite Harg.
      assert (positionalStep fr arg
              = inl (with_parameters fr (f_i fr + 1)
                       [VArr (collected ++ [VStr arg])] 0)) as Hpos.
      { unfold positionalStep. rewrite Hcmd. unfold parameterStep.
        rewrite Hcursor, Hvalues. cbn. rewrite Hparser. cbn. by rewrite Hrep. }
      unfold iteration. destruct arg as [|c tail]; [done|].
      cbn [starts_with_dash] in Harg_nodash. by rewrite Harg_nodash. }
    apply (run_step _ _ _ _ Hstep).
    rewrite (IH _ (collected ++ [VStr arg])); try done.
    + cbn [with_parameters f_args f_command f_path f_options map]. by rewrite <- app_assoc.
    + cbn [with_parameters f_i f_args]. by rewrite Nat.add_1_r.
Qed.

(** X11. A command whose only parameter is repeatable collects every positional
    token, in order, into one array and calls the handler with it; with no
    token at all it calls the handler with the empty array when the
    parameter is optional and fails with the missing-parameter error when
    it is not. *)
Theorem repeatable_parameter_absorbs (name : string) (help ehelp : option string)
    (handler : Handler) (p : CliParameter) (args : list string) :
  p_repeatable p = true -> truthy (p_default p) = false -> p_parser p = None ->
  Forall (fun arg => starts_with_dash arg = false) args ->
  parserRun args (ActionCommand name help ehelp None (Some [p]) handler) [] ∅
  = Some (if negb (p_optional p) && (length args =? 0)
          then CliParseError [ActionCommand name help ehelp None (Some [p]) handler]
                 (missingParameter (p_name p))
          else Return (LeafHandler handler [VArr (map VStr args)] ∅
                         [ActionCommand name help ehelp None (Some [p]) handler])).
Proof.
  intros Hrep Hdefault Hparser Hnodash. unfold parserRun.
  rewrite (absorb_run name help ehelp None handler p args _ []); try done.
  - f_equal. unfold finish.
    cbn [with_parameters enter f_command f_parameters f_options f_path app].
    unfold checkParameters. cbn. rewrite Hrep. cbn.
    destruct (p_optional p); cbn; [done|].
    rewrite length_map. by destruct (length args =? 0).
  - cbn. unfold primeParameter. by rewrite Hdefault, Hrep.
Qed.

Lemma repeatable_parameter_absorbs_witness :
  parserRun ["fox"; "owl"; "deer"]
    (ActionCommand "animal" None None None (Some [forest.species]) "printArgs") [] ∅
  = Some (Return (LeafHandler "printArgs" [VArr [VStr "fox"; VStr "owl"; VStr "deer"]] ∅
                    [ActionCommand "animal" None None None (Some [forest.species])
                       "printArgs"])).
Proof.
  exact (repeatable_parameter_absorbs "animal" None None "printArgs" forest.species
           ["fox"; "owl"; "deer"] eq_refl eq_refl eq_refl
           ltac:(repeat constructor)).
Defined.

(** ** Scalar parameters *)

Lemma run_S_inl fuel fr fr' : step fr = inl fr' -> run (S fuel) fr = run fuel fr'.
Proof. intros H. cbn [run]. by rewrite H. Qed.

Lemma nodash_iteration fr arg :
  starts_with_dash arg = false -> iteration fr arg = positionalStep fr arg.
Proof.
  unfold iteration. destruct arg as [|c tail]; [done|].
  cbn [starts_with_dash]. by intros ->.
Qed.

(** The run of an action command over positional tokens that fill scalar
    parameters without parser: each token is stored, as it is, in the slot
    at the cursor, and the cursor moves on. *)
Lemma scalars_run name help ehelp options handler ps firsts : forall fr fuel tail,
  f_command fr = ActionCommand name help ehelp options (Some ps) handler ->
  Forall (fun p => p_repeatable p = false /\ p_parser p = None) ps ->
  drop (f_i fr) (f_args fr) = firsts ++ tail ->
  f_currentParameterIndex fr + length firsts <= length ps ->
  length (f_parameters fr) = length ps ->
  Forall (fun arg => starts_with_dash arg = false) firsts ->
  run (length firsts + fuel) fr
  = run fuel
      (with_parameters fr (f_i fr + length firsts)
         (take (f_currentParameterIndex fr) (f_parameters fr)
          ++ map VStr firsts
          ++ drop (f_currentParameterIndex fr + length firsts) (f_parameters fr))
         (f_currentParameterIndex fr + length firsts)).
Proof.
  induction firsts as [|arg firsts IH];
    intros fr fuel tail Hcmd Hscalar Hdrop Hroom Hlen Hnodash.
  - cbn [length map app Nat.add]. rewrite !Nat.add_0_r, take_drop.
    by destruct fr.
  - cbn [app] in Hdrop. apply lookup_drop_head in Hdrop as [Harg Hrest].
    apply Forall_cons in Hnodash as [Harg_nodash Hnodash].
    cbn [length] in Hroom.
    destruct (lookup_lt_is_Some_2 ps (f_currentParameterIndex fr)) as [q Hq]; [lia|].
    pose proof (proj1 (Forall_forall _ _) Hscalar q
                  ltac:(by eapply list_elem_of_lookup_2)) as [Hrep Hparser].
    assert (step fr
            = inl (with_parameters fr (f_i fr + 1)
                     (<[f_currentParameterIndex fr := VStr arg]> (f_parameters fr))
                     (f_currentParameterIndex fr + 1))) as Hstep.
    { unfold step. rewrite Harg, nodash_iteration by done.
      unfold positionalStep. rewrite Hcmd. unfold parameterStep. cbn [mbind option_bind].
      rewrite Hq. cbn. rewrite Hparser. cbn. by rewrite Hrep. }
    cbn [length Nat.add]. rewrite (run_S_inl _ _ _ Hstep).
    rewrite (IH _ fuel tail); cbn [with_parameters f_command f_args f_i f_parameters
                                    f_currentParameterIndex]; try done.
    + f_equal. f_equal; [lia| |lia].
      rewrite Nat.add_1_r. cbn [map].
      rewrite take_S_r with (x := VStr arg)
        by (apply list_lookup_insert_eq; lia).
      rewrite take_insert_ge by lia. rewrite <- app_assoc. cbn [app].
      do 3 f_equal. rewrite drop_insert_lt by lia. f_equal. lia.
    + by rewrite Nat.add_1_r.
    + lia.
    + by rewrite length_insert.
Qed.

Lemma indexOfNull_strings args : indexOfNull (map VStr args) = None.
Proof. induction args as [|a args IH]; [done|]. cbn. by rewrite IH. Qed.

(** X12. An action command whose parameters are all scalar and without parser,
    given exactly one positional token per parameter, calls its handler
    with the tokens as values, in the order they were given. *)
Theorem positional_values_in_order (name : string) (help ehelp : option string)
    (handler : Handler) (ps : list CliParameter) (args : list string) :
  Forall (fun p => p_repeatable p = false /\ p_parser p = None) ps ->
  Forall (fun arg => starts_with_dash arg = false) args ->
  length args = length ps ->
  parserRun args (ActionCommand name help ehelp None (Some ps) handler) [] ∅
  = Some (Return (LeafHandler handler (map VStr args) ∅
                    [ActionCommand name help ehelp None (Some ps) handler])).
Proof.
  intros Hscalar Hnodash Hlen. unfold parserRun.
  rewrite <- Nat.add_1_r.
  rewrite (scalars_run name help ehelp None handler ps args _ 1 []);
    cbn [enter f_command f_args f_i f_parameters f_currentParameterIndex Nat.add];
    try done.
  - cbn [run]. unfold step.
    cbn [enter with_parameters f_args f_i]. rewrite lookup_ge_None_2 by lia. f_equal.
    unfold finish.
    cbn [enter with_parameters f_command f_parameters f_options f_path app take].
    rewrite drop_ge by (rewrite primeParameters_declared, length_map; cbn; lia).
    rewrite app_nil_r. rewrite take_0. cbn [app].
    change (primeOptions (ActionCommand name help ehelp None (Some ps) handler) ∅)
      with (∅ : gmap string JSValue).
    assert (checkParameters (Some ps) (map VStr args) = Pass) as ->.
    { unfold checkParameters. destruct ps as [|p0 ps']; [done|].
      rewrite indexOfNull_strings.
      destruct (lookup_lt_is_Some_2 (p0 :: ps') (length (p0 :: ps') - 1)) as [q Hq].
      { cbn. lia. }
      rewrite Hq.
      pose proof (proj1 (Forall_forall _ _) Hscalar q
                    ltac:(by eapply list_elem_of_lookup_2)) as [-> _]. done. }
    done.
  - by rewrite drop_0, app_nil_r.
  - lia.
  - by rewrite primeParameters_declared, length_map.
Qed.

Lemma positional_values_in_order_witness :
  parserRun ["oak"; "north"]
    (ActionCommand "move" None None None
       (Some [forest.object; forest.param "place" None]) "printArgs") [] ∅
  = Some (Return (LeafHandler "printArgs" (map VStr ["oak"; "north"]) ∅
                    [ActionCommand "move" None None None
                       (Some [forest.object; forest.param "place" None]) "printArgs"])).
Proof.
  exact (positional_values_in_order "move" None None "printArgs"
           [forest.object; forest.param "place" None] ["oak"; "north"]
           ltac:(repeat constructor) ltac:(repeat constructor) eq_refl).
Defined.

(** X13. A positional token beyond the last parameter of an action command
    whose parameters are scalar and without parser is refused with the
    unexpected-parameter error, which names that token; what comes after
    it is not looked at. *)
Theorem surplus_positional_rejected (name : string) (help ehelp : option string)
    (options : option (list CliOption)) (handler : Handler) (ps : list CliParameter)
    (firsts : list string) (extra : string) (rest : list string) :
  Forall (fun p => p_repeatable p = false /\ p_parser p = None) ps ->
  Forall (fun arg => starts_with_dash arg = false) firsts ->
  starts_with_dash extra = false ->
  length firsts = length ps ->
  parserRun (firsts ++ extra :: rest)
    (ActionCommand name help ehelp options (Some ps) handler) [] ∅
  = Some (CliParseError [ActionCommand name help ehelp options (Some ps) handler]
            ("unexpected Parameter " +:+ quoted extra)).
Proof.
  intros Hscalar Hnodash Hextra Hlen. unfold parserRun.
  replace (S (length (firsts ++ extra :: rest)))
    with (length firsts + S (S (length rest))) by (rewrite length_app; cbn; lia).
  rewrite (scalars_run name help ehelp options handler ps firsts _ _ (extra :: rest));
    cbn [enter f_command f_args f_i f_parameters f_currentParameterIndex Nat.add];
    try done.
  - cbn [run]. unfold step.
    cbn [enter with_parameters f_args f_i]. rewrite list_lookup_middle by done.
    rewrite nodash_iteration by done.
    unfold positionalStep. cbn [enter with_parameters f_command]. unfold parameterStep.
    cbn [enter with_parameters f_currentParameterIndex f_path mbind option_bind app].
    rewrite Hlen, lookup_ge_None_2 by lia. done.
  - lia.
  - by rewrite primeParameters_declared, length_map.
Qed.

Lemma surplus_positional_rejected_witness :
  parserRun (["oak"] ++ "elm" :: ["--whatever"])
    (ActionCommand "move" None None (Some [forest.all]) (Some [forest.object]) "printArgs")
    [] ∅
  = Some (CliParseError
            [ActionCommand "move" None None (Some [forest.all]) (Some [forest.object])
               "printArgs"]
            ("unexpected Parameter " +:+ quoted "elm")).
Proof.
  exact (surplus_positional_rejected "move" None None (Some [forest.all]) "printArgs"
           [forest.object] ["oak"] "elm" ["--whatever"]
           ltac:(repeat constructor) ltac:(repeat constructor) eq_refl eq_refl).
Defined.

(** ** A repeatable option *)

(** The tokens [-c v1 -c v2 ...]. *)
Lemma flag_lookup name help ehelp handler o c :
  o_symbol o = Some (String c EmptyString) -> is_hyphen c = false ->
  selectOption [ActionCommand name help ehelp (Some [o]) None handler]
    (String c EmptyString) = Selected o.
Proof.
  intros Hsymbol Hc. unfold selectOption. rewrite Hc.
  unfold findOption. cbn. unfold has_symbol. rewrite Hsymbol.
  by rewrite String.eqb_refl.
Qed.

Lemma option_values_run name help ehelp handler o c values : forall fr collected,
  f_command fr = ActionCommand name help ehelp (Some [o]) None handler ->
  f_path fr = [ActionCommand name help ehelp (Some [o]) None handler] ->
  o_symbol o = Some (String c EmptyString) -> is_hyphen c = false ->
  o_boolean o = false -> o_handler o = None -> o_parser o = None ->
  o_repeatable o = true ->
  f_options fr = {[o_name o := VArr collected]} ->
  drop (f_i fr) (f_args fr)
  = concat (map (fun v => [String "-" (String c EmptyString); v]) values) ->
  run (S (length values)) fr
  = Some (finish (with_options fr 0
                    {[o_name o := VArr (collected ++ map VStr values)]})).
Proof.
  induction values as [|v values IH];
    intros fr collected Hcmd Hpath Hsymbol Hc Hbool Hhandler Hparser Hrep Hopts Hdrop.
  - cbn [run]. unfold step. rewrite (lookup_drop_nil _ _ Hdrop). f_equal.
    unfold finish. cbn [with_options f_command f_parameters f_options f_path map].
    by rewrite app_nil_r, Hopts.
  - cbn [map concat app] in Hdrop.
    apply lookup_drop_head in Hdrop as [Hflag Hdrop].
    apply lookup_drop_head in Hdrop as [Hvalue Hdrop].
    assert (step fr
            = inl (with_options fr (f_i fr + 2)
                     {[o_name o := VArr (collected ++ [VStr v])]})) as Hstep.
    { unfold step. rewrite Hflag. unfold iteration.
      change (is_hyphen "-") with true. cbn iota.
      rewrite Hpath, (flag_lookup name help ehelp handler o c) by done.
      unfold optionStep. rewrite Hbool, Nat.add_1_r, Hvalue, Hparser. cbn [apply_parser is_null].
      rewrite Hhandler, Hrep, Hopts, lookup_singleton_eq. cbn [push].
      do 2 f_equal. apply insert_singleton_eq. }
    cbn [length]. apply (run_step _ _ _ _ Hstep).
    rewrite (IH _ (collected ++ [VStr v])); try done.
    + cbn [with_options f_args f_command f_path f_parameters map].
      by rewrite <- app_assoc.
    + cbn [with_options f_i f_args]. by rewrite Nat.add_succ_r, Nat.add_1_r.
Qed.

(** X14. A repeatable option collects the values of all its occurrences, in the
    order given, whatever the values are: the token after the option is
    its value even when it starts with a dash. With no occurrence the
    handler gets the empty array, unless the option is required, which
    fails with the missing-option error. *)
Theorem repeatable_option_collects (name : string) (help ehelp : option string)
    (handler : Handler) (o : CliOption) (c : ascii) (values : list string) :
  o_symbol o = Some (String c EmptyString) -> is_hyphen c = false ->
  o_boolean o = false -> o_handler o = None -> o_parser o = None ->
  truthy (o_default o) = false -> o_repeatable o = true ->
  parserRun (concat (map (fun v => [String "-" (String c EmptyString); v]) values))
    (ActionCommand name help ehelp (Some [o]) None handler) [] ∅
  = Some (if o_required o && (length values =? 0)
          then CliParseError [ActionCommand name help ehelp (Some [o]) None handler]
                 (missingOption (o_name o))
          else Return (LeafHandler handler [] {[o_name o := VArr (map VStr values)]}
                         [ActionCommand name help ehelp (Some [o]) None handler])).
Proof.
  intros Hsymbol Hc Hbool Hhandler Hparser Hdefault Hrep. unfold parserRun.
  assert (primeOptions (ActionCommand name help ehelp (Some [o]) None handler) ∅
          = {[o_name o := VArr []]}) as Hprime.
  { unfold primeOptions. cbn. unfold primeOption. by rewrite Hdefault, Hrep. }
  apply (run_fuel_irrelevant (S (length values))).
  - rewrite (option_values_run name help ehelp handler o c values _ []); try done.
    f_equal. unfold finish.
    cbn [with_options enter f_command f_parameters f_options f_path app checkParameters].
    cbn [checkPath c_options default checkOptions].
    change (id [o]) with [o]. cbn [checkOptions]. unfold checkOption.
    change (primeParameters (ActionCommand name help ehelp (Some [o]) None handler))
      with (@nil JSValue).
    unfold js_in, member_is_empty. rewrite lookup_singleton_eq, Hrep.
    destruct (o_required o); [|done]. cbn [andb negb length_is_zero].
    rewrite length_map. by destruct (length values =? 0).
  - apply le_n_S. induction values as [|v values IH]; cbn; lia.
Qed.

Lemma repeatable_option_collects_witness :
  parserRun ["-f"; "lime"; "-f"; "-x"]
    (ActionCommand "tree" None None (Some [forest.useFertilizer]) None "printArgs") [] ∅
  = Some (Return (LeafHandler "printArgs" []
                    {["useFertilizer" := VArr [VStr "lime"; VStr "-x"]]}
                    [ActionCommand "tree" None None (Some [forest.useFertilizer]) None
                       "printArgs"])).
Proof.
  exact (repeatable_option_collects "tree" None None "printArgs" forest.useFertilizer
           "f" ["lime"; "-x"] eq_refl eq_refl eq_refl eq_refl eq_refl eq_refl eq_refl).
Defined.

(** ** The options blocks of the help *)

Lemma helpGroups_spec path :
  helpGroups path = (Nat.min (signature_width path) 80, groups_spec path).
Proof.
  unfold helpGroups, groups_spec, required_entries.
  rewrite helpOptions_command_fold, scan_order_commands, signature_width_rev. simpl.
  f_equal. by destruct (concat _).
Qed.

Lemma own_group_rows len order :
  concat (map snd (omap (own_group len) order))
  = concat (map other_rows (map snd order)).
Proof.
  induction order as [|ic order IH]; [done|]. cbn [omap list_omap map concat].
  unfold own_group at 1. fold (other_rows (snd ic)).
  destruct (other_rows (snd ic)) as [|row rows] eqn:E.
  - cbn [app]. apply IH.
  - cbn [map concat snd]. by rewrite IH.
Qed.

Lemma rendered_rows_spec path :
  rendered_rows path
  = concat (map required_rows (rev path)) ++ concat (map other_rows (rev path)).
Proof.
  unfold rendered_rows. rewrite helpGroups_spec. cbn [snd]. unfold groups_spec.
  rewrite map_app, concat_app, own_group_rows, scan_order_commands.
  f_equal. unfold required_entries. fold required_rows.
  destruct (concat (map required_rows (rev path))); [done|].
  cbn [map concat snd]. by rewrite app_nil_r.
Qed.

Lemma rows_of_command command :
  required_rows command ++ other_rows command ≡ₚ map entry (declared_options command).
Proof.
  unfold required_rows, other_rows. rewrite <- map_app. apply fmap_Permutation.
  rewrite (list_filter_iff (fun o => o_required o = false)
             (fun o => ~ o_required o = true)).
  - apply filter_app_complement.
  - intros o. by destruct (o_required o).
Qed.

Lemma rows_of_commands commands :
  concat (map required_rows commands) ++ concat (map other_rows commands)
  ≡ₚ map entry (path_options commands).
Proof.
  unfold path_options. induction commands as [|c cs IH]; [done|].
  cbn [map concat]. rewrite map_app, <- rows_of_command, <- IH.
  rewrite <- !app_assoc. apply Permutation_app_head.
  rewrite !app_assoc. apply Permutation_app_tail, Permutation_app_comm.
Qed.

Lemma path_options_rev path : path_options (rev path) ≡ₚ path_options path.
Proof.
  unfold path_options. induction path as [|c path IH]; [done|].
  cbn [rev map concat]. rewrite map_app, concat_app, IH. cbn [map concat].
  rewrite app_nil_r. apply Permutation_app_comm.
Qed.

Lemma rendered_rows_options path : rendered_rows path ≡ₚ map entry (path_options path).
Proof.
  rewrite rendered_rows_spec, rows_of_commands. apply fmap_Permutation, path_options_rev.
Qed.

Lemma string_length_append s t : String.length (s +:+ t) = String.length s + String.length t.
Proof.
  induction s as [|c s IH]; [done|].
  change (S (String.length (s +:+ t)) = S (String.length s + String.length t)).
  by rewrite IH.
Qed.

Lemma string_length_of_list l : String.length (string_of_list_ascii l) = length l.
Proof. induction l as [|c l IH]; [done|]. simpl. by rewrite IH. Qed.

Lemma foldr_max_bound (l : list nat) x : x ∈ l -> x <= foldr Nat.max 0 l.
Proof. induction 1; simpl; lia. Qed.

Lemma groups_spec_nonempty path :
  Forall (fun group : Group => snd group <> []) (groups_spec path).
Proof.
  unfold groups_spec. apply Forall_app. split.
  - destruct (required_entries path); repeat constructor. done.
  - apply Forall_forall. intros group (ic & _ & Hown)%list_elem_of_omap.
    unfold own_group in Hown. destruct (map entry _); [done|]. by injection Hown as <-.
Qed.

(** The text [helpOptions] returns, block by block. *)
Lemma string_append_assoc (s t u : string) : (s +:+ t) +:+ u = s +:+ (t +:+ u).
Proof.
  induction s as [|c s IH]; [done|].
  change (String c ((s +:+ t) +:+ u) = String c (s +:+ (t +:+ u))). by rewrite IH.
Qed.

Lemma renderPair_line width row : renderPair width row = row_line width row.
Proof.
  unfold renderPair, row_line, padEnd, spaces. by rewrite string_append_assoc.
Qed.

Lemma renderGroup_block width block : renderGroup width block = block_text width block.
Proof.
  unfold renderGroup, block_text.
  by rewrite (map_ext _ _ (renderPair_line width)).
Qed.

Lemma rendering_concat width groups : forall output,
  fold_left (fun output group => output +:+ renderGroup width group) groups output
  = output +:+ String.concat "" (map (block_text width) groups).
Proof.
  induction groups as [|g groups IH]; intros output; cbn [fold_left map].
  { by rewrite append_empty_r. }
  rewrite IH, string_append_assoc, renderGroup_block. f_equal.
  destruct groups as [|g' groups]; [by rewrite append_empty_r|done].
Qed.

Lemma helpOptions_blocks path :
  helpOptions path
  = String.concat "" (map (block_text (Nat.min (signature_width path) 80))
                          (groups_spec path)).
Proof. unfold helpOptions. rewrite helpGroups_spec. apply rendering_concat. Qed.

(** X15. The options part of the help text is a sequence of titled blocks,
    none of them empty, and the rows of these blocks taken together are,
    up to their order, one row for each option declared along the path:
    whatever block an option is put in, it is neither left out of the
    text nor printed in two blocks. *)
Theorem every_option_rendered_once (path : list CliCommand) :
  exists blocks : list Group,
    helpOptions path
    = String.concat "" (map (block_text (Nat.min (signature_width path) 80)) blocks)
    /\ Forall (fun block : Group => snd block <> []) blocks
    /\ concat (map snd blocks) ≡ₚ map entry (path_options path).
Proof.
  exists (groups_spec path). split; [apply helpOptions_blocks|].
  split; [apply groups_spec_nonempty|].
  pose proof (rendered_rows_options path) as Hperm.
  unfold rendered_rows in Hperm. by rewrite helpGroups_spec in Hperm.
Qed.

Lemma join_cons sep x l :
  join sep (x :: l) = x +:+ match l with [] => "" | _ => sep +:+ join sep l end.
Proof. destruct l; [by rewrite append_empty_r|done]. Qed.

Lemma join_holds sep (l : list string) x : x ∈ l -> forall head,
  exists before after, head +:+ sep +:+ join sep l = before +:+ sep +:+ x +:+ after.
Proof.
  induction 1 as [x l|x y l Hin IH]; intros head; rewrite join_cons.
  - by eexists head, _.
  - destruct l as [|z l]; [by apply elem_of_nil in Hin|].
    destruct (IH (head +:+ sep +:+ y)) as (before & after & Heq).
    exists before, after. rewrite <- Heq. by rewrite !string_append_assoc.
Qed.

Lemma concat_holds (l : list string) x :
  x ∈ l -> exists before after, String.concat "" l = before +:+ x +:+ after.
Proof.
  induction 1 as [x l|x y l Hin IH].
  - exists "", (String.concat "" l). by destruct l; [rewrite append_empty_r|].
  - destruct IH as (before & after & Heq). exists (y +:+ before), after.
    destruct l as [|z l]; [by apply elem_of_nil in Hin|].
    change (String.concat "" (y :: z :: l)) with (y +:+ "" +:+ String.concat "" (z :: l)).
    rewrite Heq. by rewrite !string_append_assoc.
Qed.

Lemma row_printed path row :
  row ∈ rendered_rows path ->
  exists before after,
    helpOptions path
    = before +:+ nl +:+ row_line (Nat.min (signature_width path) 80) row +:+ after.
Proof.
  unfold rendered_rows. rewrite helpGroups_spec, helpOptions_blocks. cbn [snd].
  intros Hrow. apply list_elem_of_In, in_concat in Hrow as (rows & Hrows & Hrow).
  apply in_map_iff in Hrows as (block & <- & Hblock).
  apply list_elem_of_In in Hrow, Hblock.
  set (width := Nat.min (signature_width path) 80).
  destruct (concat_holds (map (block_text width) (groups_spec path)) (block_text width block))
    as (pre & post & ->).
  { apply list_elem_of_fmap. by exists block. }
  destruct (join_holds nl (map (row_line width) (snd block)) (row_line width row))
    with (head := nl +:+ nl +:+ fst block +:+ ":") as (before & after & Heq).
  { apply list_elem_of_fmap. by exists row. }
  exists (pre +:+ before), (after +:+ post). unfold block_text.
  rewrite !string_append_assoc in Heq. rewrite !string_append_assoc. f_equal.
  rewrite <- !string_append_assoc. f_equal. by rewrite !string_append_assoc.
Qed.

(** X16. Every option declared along the path is printed on a line of its
    own: two spaces, its signature in full, spaces up to the width of the
    signature column, the separator and its help text, the width being
    that of the longest signature of the path, at most 80. When no
    signature is longer than 80 characters the padded signatures all have
    that one width, so the separators start in the same column. *)
Theorem option_columns_align (path : list CliCommand) (command : CliCommand)
    (option : CliOption) :
  command ∈ path -> option ∈ declared_options command ->
  exists before after,
    helpOptions path
    = before +:+ nl +:+ "  " +:+ helpOption option
      +:+ spaces (Nat.min (signature_width path) 80 - String.length (helpOption option))
      +:+ " : " +:+ or_else (o_help option) "" +:+ after
    /\ (signature_width path <= 80 ->
        String.length
          (helpOption option
           +:+ spaces (Nat.min (signature_width path) 80
                       - String.length (helpOption option)))
        = signature_width path).
Proof.
  intros Hcommand Hoption.
  assert (option ∈ path_options path) as Hin.
  { unfold path_options. apply list_elem_of_In, in_concat.
    exists (declared_options command). split; [|by apply list_elem_of_In].
    apply in_map. by apply list_elem_of_In. }
  destruct (row_printed path (entry option)) as (before & after & Heq).
  { rewrite rendered_rows_options. apply list_elem_of_fmap. by exists option. }
  exists before, after. split.
  - rewrite Heq. unfold row_line, entry. cbn [fst snd].
    by rewrite !string_append_assoc.
  - intros Hwidth.
    assert (String.length (helpOption option) <= signature_width path) as Hbound.
    { unfold signature_width, widths. apply foldr_max_bound.
      apply list_elem_of_fmap. by exists option. }
    unfold spaces. rewrite string_length_append, string_length_of_list, repeat_length. lia.
Qed.

Lemma option_columns_align_witness :
  exists before after,
    helpOptions [forest.config; forest.add]
    = before +:+ nl +:+ "  " +:+ "--dry-run" +:+ spaces (23 - 9) +:+ " : "
      +:+ "to a test run without changing any actual state" +:+ after.
Proof.
  destruct (option_columns_align [forest.config; forest.add] forest.add forest.dryRun)
    as (before & after & Heq & _).
  - apply list_elem_of_further, list_elem_of_here.
  - apply list_elem_of_here.
  - exists before, after. exact Heq.
Defined.

Lemma rendering_grows padding groups output :
  String.length output + length groups
  <= String.length
       (fold_left (fun output group => output +:+ renderGroup padding group) groups output).
Proof.
  revert output. induction groups as [|g groups IH]; intros output; cbn [fold_left length].
  { lia. }
  etrans; [|apply IH]. rewrite string_length_append. unfold renderGroup, nl.
  rewrite string_length_append. cbn [String.length]. lia.
Qed.

(** X17. The help prints no options block at all exactly when no command of the
    path declares an option. *)
Theorem no_options_no_block (path : list CliCommand) :
  helpOptions path = EmptyString <-> path_options path = [].
Proof.
  unfold helpOptions. rewrite helpGroups_spec.
  pose proof (rendered_rows_options path) as Hperm.
  unfold rendered_rows in Hperm. rewrite helpGroups_spec in Hperm. cbn [snd] in Hperm.
  pose proof (groups_spec_nonempty path) as Hnonempty.
  split.
  - intros Hempty.
    pose proof (rendering_grows (Nat.min (signature_width path) 80) (groups_spec path)
                  EmptyString) as Hgrow.
    rewrite Hempty in Hgrow. cbn [String.length] in Hgrow.
    destruct (groups_spec path); [|cbn in Hgrow; lia].
    cbn in Hperm. symmetry in Hperm. apply Permutation_nil_r in Hperm.
    by apply fmap_nil_inv in Hperm.
  - intros Hnone. rewrite Hnone in Hperm. cbn in Hperm.
    apply Permutation_nil_r in Hperm.
    destruct (groups_spec path) as [|g groups]; [done|].
    apply Forall_cons in Hnonempty as [Hg _]. cbn [map concat] in Hperm.
    by apply app_eq_nil in Hperm as [? _].
Qed.
